(** * nodemodules-cleaner: the front end's scan, selection and deletion logic

    A shallow embedding of [src/App.tsx].  React state is a record
    ([AppState]) and every handler is a function from the state of the
    render it closes over to the next state together with the effects it
    issues (alerts, backend commands, timers).  The objects that
    [buildTreeFromResults] allocates and mutates through several aliases
    (the id map, the parents' [children] arrays, the root array) live in
    an explicit heap of cells addressed by allocation index.  Of the
    rendering the parts that compute are embedded: the rows of the tree
    with their size badge and truncated path, the progress bar and label,
    and the duration badge with the effect that drives it.

    Numbers: counters and byte counts are natural numbers ([N]).  The
    quotients computed from them are exact rationals ([Q]) where the
    source has doubles; dividing an integer below 2^53 by 1024 is exact in
    both, and so are the quotients at which the development evaluates the
    progress display.  Strings are sequences of bytes, a source literal
    standing for its UTF-8 text. *)

From stdpp Require Import gmap strings list fin_maps.
From Stdlib Require Import Ascii QArith Qround Qminmax DecimalString.

Close Scope Q_scope.
Open Scope string_scope.
Open Scope list_scope.
Open Scope nat_scope.

(** ** JavaScript values and string primitives *)

(** [number | null | undefined], the type of the optional [size] fields. *)
Inductive OptNumber :=
  | js_undefined
  | js_null
  | js_number (n : N).

#[global] Instance OptNumber_eq_dec : EqDecision OptNumber.
Proof. solve_decision. Defined.

(** [x || 0] on an optional number: [undefined], [null] and [0] are falsy. *)
Definition or_zero (x : OptNumber) : N :=
  match x with
  | js_number n => n
  | _ => 0%N
  end.

(** [String.prototype.split] with the pattern [/[\\\/]/]: the string is cut
    at every slash and every backslash; the empty string gives [[""]]. *)
Definition is_separator (c : ascii) : bool :=
  bool_decide (c = "/"%char) || bool_decide (c = "\"%char).

Fixpoint split_path (s : string) : list string :=
  match s with
  | "" => [""]
  | String c rest =>
      if is_separator c then "" :: split_path rest
      else match split_path rest with
           | part :: parts => String c part :: parts
           | [] => [String c ""]
           end
  end.

(** [Array.prototype.join] *)
Fixpoint join (sep : string) (parts : list string) : string :=
  match parts with
  | [] => ""
  | [p] => p
  | p :: rest => p +:+ sep +:+ join sep rest
  end.

(** [String.prototype.trim]: white space and line terminators are removed
    from both ends.  The table lists the code points of ECMAScript's
    WhiteSpace and LineTerminator productions in UTF-8. *)
Fixpoint utf8 (bytes : list nat) : string :=
  match bytes with
  | [] => ""
  | b :: rest => String (ascii_of_nat b) (utf8 rest)
  end.

Definition whiteSpace : list string :=
  [ utf8 [9]; utf8 [10]; utf8 [11]; utf8 [12]; utf8 [13]; utf8 [32]
  ; utf8 [194; 160]                                   (* U+00A0 *)
  ; utf8 [225; 154; 128]                              (* U+1680 *)
  ; utf8 [226; 128; 128]; utf8 [226; 128; 129]; utf8 [226; 128; 130]
  ; utf8 [226; 128; 131]; utf8 [226; 128; 132]; utf8 [226; 128; 133]
  ; utf8 [226; 128; 134]; utf8 [226; 128; 135]; utf8 [226; 128; 136]
  ; utf8 [226; 128; 137]; utf8 [226; 128; 138]        (* U+2000 .. U+200A *)
  ; utf8 [226; 128; 168]; utf8 [226; 128; 169]        (* U+2028, U+2029 *)
  ; utf8 [226; 128; 175]                              (* U+202F *)
  ; utf8 [226; 129; 159]                              (* U+205F *)
  ; utf8 [227; 128; 128]                              (* U+3000 *)
  ; utf8 [239; 187; 191] ].                           (* U+FEFF *)

Fixpoint strip_prefix (p s : string) : option string :=
  match p, s with
  | "", _ => Some s
  | String a p', String b s' => if bool_decide (a = b) then strip_prefix p' s' else None
  | String _ _, "" => None
  end.

Fixpoint strip_any (table : list string) (s : string) : option string :=
  match table with
  | [] => None
  | w :: table' =>
      match strip_prefix w s with
      | Some rest => Some rest
      | None => strip_any table' s
      end
  end.

Fixpoint trim_from (table : list string) (fuel : nat) (s : string) : string :=
  match fuel with
  | O => s
  | S fuel' =>
      match strip_any table s with
      | Some rest => trim_from table fuel' rest
      | None => s
      end
  end.

Definition trimStart (s : string) : string :=
  trim_from whiteSpace (String.length s) s.

Definition trimEnd (s : string) : string :=
  String.rev (trim_from (String.rev <$> whiteSpace) (String.length s) (String.rev s)).

Definition trim (s : string) : string := trimEnd (trimStart s).

(** ** The data exchanged with the backend *)

Module ScanItem.
Record t := mk
  { project_path : string
  ; node_modules_path : string
  ; size : OptNumber }.
End ScanItem.

Module ScanProgress.
Record t := mk
  { current_folder : string
  ; folders_scanned : N
  ; total_folders_estimated : N
  ; node_modules_found : N
  ; directories_skipped : N
  ; is_complete : bool }.
End ScanProgress.

Module DriveInfo.
Record t := mk
  { path : string
  ; name : string }.
End DriveInfo.

Module DeleteResult.
Record t := mk
  { path : string
  ; success : bool
  ; error : option string }.
End DeleteResult.

Inductive ScanScope := scope_folder | scope_drive | scope_entire.

(** ** formatFileSize *)

Definition units : list string := ["B"; "KB"; "MB"; "GB"; "TB"].

(** The loop [while (size >= 1024 && unitIndex < units.length - 1)]; each
    turn advances [unitIndex], so [length units] turns are never all used. *)
Fixpoint scale_loop (fuel : nat) (size : Q) (unitIndex : nat) : Q * nat :=
  match fuel with
  | O => (size, unitIndex)
  | S fuel' =>
      if Qle_bool 1024 size && (unitIndex <? length units - 1)%nat
      then scale_loop fuel' (size / 1024)%Q (S unitIndex)
      else (size, unitIndex)
  end.

Definition decimal (n : Z) : string :=
  NilZero.string_of_uint (N.to_uint (Z.to_N n)).

(** [Number.prototype.toFixed(1)]: the integer [n] with [n / 10] nearest to
    the number, the larger one on a tie; a negative number is formatted from
    its absolute value behind a minus sign. *)
Definition toFixed1_nonneg (x : Q) : string :=
  let n := Qfloor (x * 10 + (1 # 2))%Q in
  decimal (n / 10)%Z +:+ "." +:+ decimal (n mod 10)%Z.

Definition toFixed1 (x : Q) : string :=
  if Qle_bool 0 x then toFixed1_nonneg x else "-" +:+ toFixed1_nonneg (- x)%Q.

Definition formatFileSize (bytes : OptNumber) : string :=
  match bytes with
  | js_null | js_undefined => "—"
  | js_number b =>
      let '(size, unitIndex) := scale_loop (length units) (inject_Z (Z.of_N b)) 0 in
      toFixed1 size +:+ " " +:+ default "" (units !! unitIndex)
  end.

(** ** The progress display *)

(** [(folders_scanned / Math.max(total_folders_estimated, 1)) * 100] *)
Definition progress_divisor (p : ScanProgress.t) : N :=
  N.max (ScanProgress.total_folders_estimated p) 1%N.

(** The quotient is taken exactly, where the source divides and
    multiplies doubles.  The two agree where the double operations are
    exact (as at 2 of 1), but not everywhere: at 29 of 200 the source
    computes 14.499999999999998 and prints 14, the exact quotient is 14.5
    and rounds to 15.  What is proved of the label below is either an
    evaluation at an input where both agree or a bound that the doubles
    satisfy as well. *)
Definition progress_ratio (p : ScanProgress.t) : Q :=
  (inject_Z (Z.of_N (ScanProgress.folders_scanned p))
   / inject_Z (Z.of_N (progress_divisor p)) * 100)%Q.

(** [Math.round]: the nearest integer, the larger one on a tie. *)
Definition Math_round (x : Q) : Z := Qfloor (x + (1 # 2))%Q.

(** The width of the bar, in percent; [None] when the bar is not rendered
    ([total_folders_estimated > 0] guards the element). *)
Definition progress_bar_width (p : ScanProgress.t) : option Q :=
  if (0 <? ScanProgress.total_folders_estimated p)%N
  then Some (Qmin (progress_ratio p) 100)
  else None.

(** The number printed in front of the percent sign, under the same guard. *)
Definition progress_label (p : ScanProgress.t) : option Z :=
  if (0 <? ScanProgress.total_folders_estimated p)%N
  then Some (Math_round (progress_ratio p))
  else None.

(** ** The tree shown in the result pane *)

Set Warnings "-register-all".

Inductive NodeType := folder | node_modules.

#[global] Instance NodeType_eq_dec : EqDecision NodeType.
Proof. solve_decision. Defined.

(** [interface TreeNode], as the immutable value that React state holds. *)
Module TreeNode.
Inductive t := mk
  { id : string
  ; name : string
  ; path : string
  ; type : NodeType
  ; children : list t
  ; size : OptNumber
  ; isExpanded : bool
  ; isSelected : bool
  ; level : nat }.

Definition set_children (x : list t) (s : t) : t :=
  mk (id s) (name s) (path s) (type s) x (size s) (isExpanded s) (isSelected s) (level s).

Definition set_isExpanded (x : bool) (s : t) : t :=
  mk (id s) (name s) (path s) (type s) (children s) (size s) x (isSelected s) (level s).

Definition set_isSelected (x : bool) (s : t) : t :=
  mk (id s) (name s) (path s) (type s) (children s) (size s) (isExpanded s) x (level s).
End TreeNode.

(** A [TreeNode] object while [buildTreeFromResults] is still mutating it:
    its [children] array holds references to other objects of the heap. *)
Module Cell.
Record t := mk
  { id : string
  ; name : string
  ; path : string
  ; type : NodeType
  ; children : list nat
  ; size : OptNumber
  ; isExpanded : bool
  ; isSelected : bool
  ; level : nat }.

Definition set_children (x : list nat) (s : t) : t :=
  mk (id s) (name s) (path s) (type s) x (size s) (isExpanded s) (isSelected s) (level s).

Definition set_size (x : OptNumber) (s : t) : t :=
  mk (id s) (name s) (path s) (type s) (children s) x (isExpanded s) (isSelected s) (level s).
End Cell.

(** ** Application state *)

Inductive DeleteKind := single | bulk.

Module DeleteTarget.
Record t := mk
  { type : DeleteKind
  ; path : option string
  ; count : option nat }.
End DeleteTarget.

(** One field per [useState] cell of [App]; [scanStartTime] is a [Date] in
    milliseconds. *)
Record AppState := mkAppState
  { scanScope : ScanScope
  ; selectedFolder : string
  ; selectedDrive : string
  ; drives : list DriveInfo.t
  ; includeSizes : bool
  ; isScanning : bool
  ; isDeleting : bool
  ; scanProgress : ScanProgress.t
  ; scanResults : list ScanItem.t
  ; treeData : list TreeNode.t
  ; selectedItems : list string
  ; showDeleteModal : bool
  ; deleteTarget : option DeleteTarget.t
  ; isDarkMode : bool
  ; scanStartTime : option Z
  ; scanDuration : string }.

Definition setIsScanning (x : bool) (s : AppState) : AppState :=
  mkAppState (scanScope s) (selectedFolder s) (selectedDrive s) (drives s)
    (includeSizes s) x (isDeleting s) (scanProgress s) (scanResults s) (treeData s)
    (selectedItems s) (showDeleteModal s) (deleteTarget s) (isDarkMode s)
    (scanStartTime s) (scanDuration s).

Definition setIsDeleting (x : bool) (s : AppState) : AppState :=
  mkAppState (scanScope s) (selectedFolder s) (selectedDrive s) (drives s)
    (includeSizes s) (isScanning s) x (scanProgress s) (scanResults s) (treeData s)
    (selectedItems s) (showDeleteModal s) (deleteTarget s) (isDarkMode s)
    (scanStartTime s) (scanDuration s).

Definition setScanProgress (x : ScanProgress.t) (s : AppState) : AppState :=
  mkAppState (scanScope s) (selectedFolder s) (selectedDrive s) (drives s)
    (includeSizes s) (isScanning s) (isDeleting s) x (scanResults s) (treeData s)
    (selectedItems s) (showDeleteModal s) (deleteTarget s) (isDarkMode s)
    (scanStartTime s) (scanDuration s).

Definition setScanResults (x : list ScanItem.t) (s : AppState) : AppState :=
  mkAppState (scanScope s) (selectedFolder s) (selectedDrive s) (drives s)
    (includeSizes s) (isScanning s) (isDeleting s) (scanProgress s) x (treeData s)
    (selectedItems s) (showDeleteModal s) (deleteTarget s) (isDarkMode s)
    (scanStartTime s) (scanDuration s).

Definition setTreeData (x : list TreeNode.t) (s : AppState) : AppState :=
  mkAppState (scanScope s) (selectedFolder s) (selectedDrive s) (drives s)
    (includeSizes s) (isScanning s) (isDeleting s) (scanProgress s) (scanResults s) x
    (selectedItems s) (showDeleteModal s) (deleteTarget s) (isDarkMode s)
    (scanStartTime s) (scanDuration s).

Definition setSelectedItems (x : list string) (s : AppState) : AppState :=
  mkAppState (scanScope s) (selectedFolder s) (selectedDrive s) (drives s)
    (includeSizes s) (isScanning s) (isDeleting s) (scanProgress s) (scanResults s)
    (treeData s) x (showDeleteModal s) (deleteTarget s) (isDarkMode s) (scanStartTime s)
    (scanDuration s).

Definition setShowDeleteModal (x : bool) (s : AppState) : AppState :=
  mkAppState (scanScope s) (selectedFolder s) (selectedDrive s) (drives s)
    (includeSizes s) (isScanning s) (isDeleting s) (scanProgress s) (scanResults s)
    (treeData s) (selectedItems s) x (deleteTarget s) (isDarkMode s) (scanStartTime s)
    (scanDuration s).

Definition setDeleteTarget (x : option DeleteTarget.t) (s : AppState) : AppState :=
  mkAppState (scanScope s) (selectedFolder s) (selectedDrive s) (drives s)
    (includeSizes s) (isScanning s) (isDeleting s) (scanProgress s) (scanResults s)
    (treeData s) (selectedItems s) (showDeleteModal s) x (isDarkMode s)
    (scanStartTime s) (scanDuration s).

Definition setScanStartTime (x : option Z) (s : AppState) : AppState :=
  mkAppState (scanScope s) (selectedFolder s) (selectedDrive s) (drives s)
    (includeSizes s) (isScanning s) (isDeleting s) (scanProgress s) (scanResults s)
    (treeData s) (selectedItems s) (showDeleteModal s) (deleteTarget s) (isDarkMode s) x
    (scanDuration s).

(** What a handler does besides updating state. *)
Inductive Effect :=
  | alert (message : string)
  | console_error (message : string)
  | invoke_start_scan_with_progress (roots : list string) (includeSizes : bool)
  | invoke_delete_node_modules (paths : list string)
  | setTimeout_clear_scanStartTime (ms : N).

(** How an awaited [invoke] settles. *)
Inductive Settled (A : Type) :=
  | resolved (value : A)
  | rejected (error : string).
Arguments resolved {A} value.
Arguments rejected {A} error.

Definition initialProgress : ScanProgress.t :=
  ScanProgress.mk "Starting scan..." 0 0 0 0 false.

(** The listener registered for [scan_progress] events. *)
Definition on_scan_progress (progress : ScanProgress.t) (st : AppState)
  : AppState * list Effect :=
  let st := setScanProgress progress st in
  if ScanProgress.is_complete progress
  then (setIsScanning false st, [setTimeout_clear_scanStartTime 5000])
  else (st, []).

(** The callback of that timer. *)
Definition clear_scanStartTime (st : AppState) : AppState :=
  setScanStartTime None st.

(** *** handleStartScan *)

(** The [switch] over [scanScope]: [inl] is the message of the alert in
    front of an early [return], [inr] the value left in [roots]. *)
Definition scope_roots (st : AppState) : string + list string :=
  match scanScope st with
  | scope_folder =>
      if bool_decide (trim (selectedFolder st) = "")
      then inl "Please select a folder to scan"
      else inr [trim (selectedFolder st)]
  | scope_drive =>
      if bool_decide (selectedDrive st = "")
      then inl "Please select a drive to scan"
      else inr [selectedDrive st]
  | scope_entire => inr (DriveInfo.path <$> drives st)
  end.

(** The handler up to its [await]: either it returns early, or it resets
    the scan state and issues the command. [now] is [new Date()]. *)
Definition handleStartScan (now : Z) (st : AppState) : AppState * list Effect :=
  if isScanning st then (st, [])
  else
    match scope_roots st with
    | inl message => (st, [alert message])
    | inr roots =>
        if bool_decide (length roots = 0)
        then (st, [alert "No valid scan targets selected"])
        else
          let st := setIsScanning true st in
          let st := setScanStartTime (Some now) st in
          let st := setScanResults [] st in
          let st := setTreeData [] st in
          let st := setSelectedItems [] st in
          let st := setScanProgress initialProgress st in
          (st, [invoke_start_scan_with_progress roots (includeSizes st)])
    end.

(** The rest of the handler, once the command has settled. *)
Definition handleStartScan_settled (reply : Settled (list ScanItem.t)) (st : AppState)
  : AppState * list Effect :=
  match reply with
  | resolved results => (setScanResults results st, [])
  | rejected error =>
      (setIsScanning false st,
       [console_error ("Scan failed: " +:+ error); alert ("Scan failed: " +:+ error)])
  end.

(** *** Selection and expansion *)

(** [new Set<string>()] keeps insertion order and ignores a value it holds. *)
Definition Set_add (x : string) (s : list string) : list string :=
  if bool_decide (x ∈ s) then s else s ++ [x].

(** [updateNode] of [toggleNodeExpansion] on one element of the array. *)
Fixpoint toggleExpansion_node (nodeId : string) (node : TreeNode.t) : TreeNode.t :=
  if bool_decide (TreeNode.id node = nodeId)
  then TreeNode.set_isExpanded (negb (TreeNode.isExpanded node)) node
  else
    match TreeNode.children node with
    | [] => node
    | children => TreeNode.set_children (toggleExpansion_node nodeId <$> children) node
    end.

(** [updateNode] of [toggleNodeSelection] on one element of the array.  The
    source calls itself on copies of the children whose flag is already
    overwritten, [updateNode(node.children.map((child) => ({ ...child,
    isSelected })))]; [override] carries that pending overwrite down to the
    child, which keeps the recursion on the children themselves. *)
Definition overwrite_isSelected (override : option bool) (node : TreeNode.t) : TreeNode.t :=
  match override with
  | Some flag => TreeNode.set_isSelected flag node
  | None => node
  end.

Fixpoint toggleSelection_node (nodeId : string) (isSelected : bool)
    (override : option bool) (node : TreeNode.t) : TreeNode.t :=
  let node' := overwrite_isSelected override node in
  if bool_decide (TreeNode.id node = nodeId)
  then
    let updatedNode := TreeNode.set_isSelected isSelected node' in
    match TreeNode.type node, TreeNode.children node with
    | folder, _ :: _ =>
        TreeNode.set_children
          (toggleSelection_node nodeId isSelected (Some isSelected) <$> TreeNode.children node)
          updatedNode
    | _, _ => updatedNode
    end
  else
    match TreeNode.children node with
    | [] => node'
    | children =>
        TreeNode.set_children (toggleSelection_node nodeId isSelected None <$> children) node'
    end.

(** [updateNode] of [selectAllNodeModules]. *)
Fixpoint selectAll_node (node : TreeNode.t) : TreeNode.t :=
  match TreeNode.type node with
  | node_modules => TreeNode.set_isSelected true node
  | folder =>
      match TreeNode.children node with
      | [] => node
      | children =>
          TreeNode.set_children (selectAll_node <$> children)
            (TreeNode.set_isExpanded true node)
      end
  end.

(** [updateNode] of [deselectAllNodeModules]. *)
Fixpoint deselectAll_node (node : TreeNode.t) : TreeNode.t :=
  match TreeNode.type node with
  | node_modules => TreeNode.set_isSelected false node
  | folder =>
      match TreeNode.children node with
      | [] => node
      | children => TreeNode.set_children (deselectAll_node <$> children) node
      end
  end.

(** [collectSelectedPaths], threading the set it fills. *)
Fixpoint collect_node (node : TreeNode.t) (selectedPaths : list string) : list string :=
  let selectedPaths :=
    if TreeNode.isSelected node && bool_decide (TreeNode.type node = node_modules)
    then Set_add (TreeNode.path node) selectedPaths
    else selectedPaths in
  foldl (fun acc child => collect_node child acc) selectedPaths (TreeNode.children node).

Definition collectSelectedPaths (nodes : list TreeNode.t) (selectedPaths : list string)
  : list string :=
  foldl (fun acc node => collect_node node acc) selectedPaths nodes.

(** [updateSelectedItems(currentTreeData)]: the value handed to
    [setSelectedItems]; without an argument the handler reads the
    [treeData] of its render. *)
Definition updateSelectedItems (dataToUse : list TreeNode.t) : list string :=
  collectSelectedPaths dataToUse [].

Definition toggleNodeExpansion (nodeId : string) (st : AppState) : AppState :=
  setTreeData (toggleExpansion_node nodeId <$> treeData st) st.

Definition toggleNodeSelection (nodeId : string) (isSelected : bool) (st : AppState)
  : AppState :=
  let st' := setTreeData (toggleSelection_node nodeId isSelected None <$> treeData st) st in
  setSelectedItems (updateSelectedItems (treeData st)) st'.

Definition selectAllNodeModules (st : AppState) : AppState :=
  let updatedData := selectAll_node <$> treeData st in
  setTreeData updatedData (setSelectedItems (updateSelectedItems updatedData) st).

Definition deselectAllNodeModules (st : AppState) : AppState :=
  let updatedData := deselectAll_node <$> treeData st in
  setTreeData updatedData (setSelectedItems (updateSelectedItems updatedData) st).

(** *** Deletion *)

(** The Delete button of a row; the row has it only for a [node_modules]
    node. *)
Definition click_delete (node : TreeNode.t) (st : AppState) : AppState :=
  match TreeNode.type node with
  | node_modules =>
      setShowDeleteModal true
        (setDeleteTarget (Some (DeleteTarget.mk single (Some (TreeNode.path node)) None)) st)
  | folder => st
  end.

Definition handleBulkDelete (st : AppState) : AppState :=
  if bool_decide (length (selectedItems st) = 0) then st
  else
    setShowDeleteModal true
      (setDeleteTarget (Some (DeleteTarget.mk bulk None (Some (length (selectedItems st))))) st).

(** The [finally] block of [confirmDelete]. *)
Definition confirmDelete_finally (st : AppState) : AppState :=
  setDeleteTarget None (setShowDeleteModal false (setIsDeleting false st)).

(** The value of [paths] in front of the command. *)
Definition delete_paths (target : DeleteTarget.t) (st : AppState) : list string :=
  match DeleteTarget.type target, DeleteTarget.path target with
  | single, Some path => if bool_decide (path = "") then [] else [path]
  | single, None => []
  | bulk, _ => selectedItems st
  end.

(** [confirmDelete] up to its [await]. *)
Definition confirmDelete (st : AppState) : AppState * list Effect :=
  match deleteTarget st with
  | None => (st, [])
  | Some target =>
      let st1 := setIsDeleting true st in
      let paths := delete_paths target st in
      if bool_decide (length paths = 0)
      then (confirmDelete_finally st1, [])
      else (st1, [invoke_delete_node_modules paths])
  end.

(** The update of [scanResults] behind the comment "Remove successfully
    deleted items". *)
Definition failedPaths (results : list DeleteResult.t) : list string :=
  DeleteResult.path <$> filter (fun r => DeleteResult.success r = false) results.

Definition remove_deleted (results : list DeleteResult.t) (prev : list ScanItem.t)
  : list ScanItem.t :=
  filter (fun item => ScanItem.node_modules_path item ∉ failedPaths results) prev.

(** The rest of [confirmDelete], once the command has settled. *)
Definition confirmDelete_settled (reply : Settled (list DeleteResult.t)) (st : AppState)
  : AppState * list Effect :=
  match reply with
  | resolved results =>
      let st := setScanResults (remove_deleted results (scanResults st)) st in
      let st := setSelectedItems [] st in
      let successCount := length (filter (fun r => DeleteResult.success r = true) results) in
      let failCount := length (filter (fun r => DeleteResult.success r = false) results) in
      let message :=
        if bool_decide (0 < failCount)
        then "Deleted " +:+ decimal (Z.of_nat successCount)
             +:+ " folders successfully. " +:+ decimal (Z.of_nat failCount) +:+ " failed."
        else "Successfully deleted " +:+ decimal (Z.of_nat successCount) +:+ " folders." in
      (confirmDelete_finally st, [alert message])
  | rejected error =>
      (confirmDelete_finally st,
       [console_error ("Delete failed: " +:+ error); alert ("Delete failed: " +:+ error)])
  end.

(** *** The result pane *)

(** What the result pane lets the user do with the tree. *)
Inductive UiEvent :=
  | ui_toggle_expansion (nodeId : string)
  | ui_toggle_selection (nodeId : string) (isSelected : bool)
  | ui_select_all
  | ui_deselect_all
  | ui_bulk_delete.

Definition ui_step (st : AppState) (event : UiEvent) : AppState :=
  match event with
  | ui_toggle_expansion nodeId => toggleNodeExpansion nodeId st
  | ui_toggle_selection nodeId isSelected => toggleNodeSelection nodeId isSelected st
  | ui_select_all => selectAllNodeModules st
  | ui_deselect_all => deselectAllNodeModules st
  | ui_bulk_delete => handleBulkDelete st
  end.

Definition ui_run (events : list UiEvent) (st : AppState) : AppState :=
  foldl ui_step st events.

(** ** buildTreeFromResults *)

(** The objects live in [heap]; a reference is the index at which the
    object was allocated.  [treeMap] and [rootNodes] hold references, as
    do the [children] arrays, so a [push] through one alias is seen
    through all of them. *)
Record BuildState := mkBuildState
  { heap : list Cell.t
  ; treeMap : gmap string nat
  ; rootNodes : list nat }.

(** [parent.children.push(child)] *)
Definition push_child (parent child : nat) (h : list Cell.t) : list Cell.t :=
  alter (fun c => Cell.set_children (Cell.children c ++ [child]) c) parent h.

(** [child.size || 0] through a reference. *)
Definition size_at (h : list Cell.t) (r : nat) : N :=
  match h !! r with
  | Some c => or_zero (Cell.size c)
  | None => 0%N
  end.

(** [children.reduce((total, child) => total + (child.size || 0), 0)] *)
Definition sum_sizes (h : list Cell.t) (children : list nat) : N :=
  foldl (fun total child => (total + size_at h child)%N) 0%N children.

(** [calculateFolderSizes].  The recursion follows references, so it runs
    on fuel; [None] stands for fuel that ran out or a reference to no
    object, neither of which the caller below lets happen. *)
Fixpoint calculateFolderSizes (fuel : nat) (nodes : list nat) (h : list Cell.t)
  : option (list Cell.t) :=
  match fuel with
  | O => None
  | S fuel' =>
      foldl
        (fun acc r =>
           h ← acc;
           node ← h !! r;
           match Cell.type node, Cell.children node with
           | folder, _ :: _ =>
               h ← calculateFolderSizes fuel' (Cell.children node) h;
               Some (alter (Cell.set_size (js_number (sum_sizes h (Cell.children node)))) r h)
           | _, _ => Some h
           end)
        (Some h) nodes
  end.

(** The value of a finished object and of everything below it. *)
Fixpoint reify (fuel : nat) (h : list Cell.t) (r : nat) : option TreeNode.t :=
  match fuel with
  | O => None
  | S fuel' =>
      c ← h !! r;
      children ← mapM (reify fuel' h) (Cell.children c);
      Some (TreeNode.mk (Cell.id c) (Cell.name c) (Cell.path c) (Cell.type c) children
              (Cell.size c) (Cell.isExpanded c) (Cell.isSelected c) (Cell.level c))
  end.

Section BuildTree.

(** [String.prototype.localeCompare] depends on the host's locale data;
    the comparison is a parameter of the development. *)
Variable localeCompare : string → string → Z.

(** [[...results].sort((a, b) => a.project_path.localeCompare(b.project_path))];
    the sort is stable. *)
Fixpoint sort_insert (item : ScanItem.t) (sorted : list ScanItem.t) : list ScanItem.t :=
  match sorted with
  | [] => [item]
  | b :: rest =>
      if (localeCompare (ScanItem.project_path item) (ScanItem.project_path b) <=? 0)%Z
      then item :: b :: rest
      else b :: sort_insert item rest
  end.

Definition sortResults (results : list ScanItem.t) : list ScanItem.t :=
  foldr sort_insert [] results.

(** The loop over [projectPathParts]; [rest] is what is left of the array
    from index [i] on. *)
Fixpoint folder_loop (projectPathParts : list string) (i : nat) (rest : list string)
    (currentPath : string) (parentNode : option nat) (b : BuildState)
  : option nat * BuildState :=
  match rest with
  | [] => (parentNode, b)
  | part :: rest =>
      if bool_decide (part = "")
      then folder_loop projectPathParts (S i) rest currentPath parentNode b
      else
        let currentPath :=
          if bool_decide (currentPath = "") then part else currentPath +:+ "/" +:+ part in
        let nodeId := "folder-" +:+ currentPath in
        let b :=
          match treeMap b !! nodeId with
          | Some _ => b
          | None =>
              let fullPath := join "/" (take (S i) projectPathParts) in
              let newNode :=
                Cell.mk nodeId part fullPath folder [] (js_number 0)
                  (bool_decide (i < 2)) false i in
              let ref := length (heap b) in
              let h := heap b ++ [newNode] in
              let m := <[nodeId := ref]> (treeMap b) in
              match parentNode with
              | Some parent => mkBuildState (push_child parent ref h) m (rootNodes b)
              | None => mkBuildState h m (rootNodes b ++ [ref])
              end
          end in
        folder_loop projectPathParts (S i) rest currentPath (treeMap b !! nodeId) b
  end.

(** The body of the loop over [sortedResults]. *)
Definition add_item (b : BuildState) (item : ScanItem.t) : BuildState :=
  let projectPathParts := split_path (ScanItem.project_path item) in
  let '(parentNode, b) := folder_loop projectPathParts 0 projectPathParts "" None b in
  let nodeModulesId := "node_modules-" +:+ ScanItem.node_modules_path item in
  let nodeModulesNode :=
    Cell.mk nodeModulesId "node_modules" (ScanItem.node_modules_path item) node_modules []
      (ScanItem.size item) false false (length projectPathParts) in
  let ref := length (heap b) in
  let h := heap b ++ [nodeModulesNode] in
  let m := <[nodeModulesId := ref]> (treeMap b) in
  match parentNode with
  | Some parent => mkBuildState (push_child parent ref h) m (rootNodes b)
  | None => mkBuildState h m (rootNodes b)
  end.

(** Everything in front of [calculateFolderSizes(rootNodes)]. *)
Definition build_nodes (results : list ScanItem.t) : BuildState :=
  foldl add_item (mkBuildState [] ∅ []) (sortResults results).

(** The whole function on the heap: the root references and the objects
    they lead to. *)
Definition buildTree_heap (results : list ScanItem.t) : option (list nat * list Cell.t) :=
  let b := build_nodes results in
  h ← calculateFolderSizes (S (length (heap b))) (rootNodes b) (heap b);
  Some (rootNodes b, h).

(** The returned array, as a value. *)
Definition buildTreeFromResults (results : list ScanItem.t) : option (list TreeNode.t) :=
  '(roots, h) ← buildTree_heap results;
  mapM (reify (length h) h) roots.

(** The effect that follows a change of [scanResults]. *)
Definition rebuild_tree (st : AppState) : option AppState :=
  if bool_decide (0 < length (scanResults st))
  then tree ← buildTreeFromResults (scanResults st); Some (setTreeData tree st)
  else Some (setTreeData [] st).

End BuildTree.

(** ** The deletion executor *)

Section DeletionExecutor.

(** Modelled from the spec: what the file system holds at a path.  The
    backend that implements [delete_node_modules] is not among the
    sources; section 4.6 of the specification is its contract. *)
Inductive Entry := regular_file | directory.

(** Modelled from the spec: the platform's trash facility, which the
    executor calls and which may fail ([None]) for reasons of its own
    (a locked file, a missing permission). *)
Variable move_to_trash : gmap string Entry → string → option (gmap string Entry).

(** Modelled from the spec: the basename of a path, its last component. *)
Definition basename (path : string) : string :=
  default "" (last (split_path path)).

(** Modelled from the spec: the three steps of section 4.6 on one path,
    (a) the basename is exactly [node_modules], (b) the path exists and
    is a directory, (c) the directory is moved to the trash; the first
    step that fails gives [success: false] with a reason. *)
Definition delete_one (fs : gmap string Entry) (path : string)
  : gmap string Entry * DeleteResult.t :=
  if bool_decide (basename path = "node_modules")
  then
    match fs !! path with
    | Some directory =>
        match move_to_trash fs path with
        | Some fs' => (fs', DeleteResult.mk path true None)
        | None => (fs, DeleteResult.mk path false (Some "could not move to trash"))
        end
    | Some regular_file => (fs, DeleteResult.mk path false (Some "not a directory"))
    | None => (fs, DeleteResult.mk path false (Some "not found"))
    end
  else (fs, DeleteResult.mk path false (Some "not a node_modules directory")).

(** Modelled from the spec: [delete_node_modules], one result per
    requested path, each path handled on its own and in turn. *)
Fixpoint delete_node_modules (paths : list string) (fs : gmap string Entry)
  : gmap string Entry * list DeleteResult.t :=
  match paths with
  | [] => (fs, [])
  | path :: rest =>
      let '(fs, result) := delete_one fs path in
      let '(fs, results) := delete_node_modules rest fs in
      (fs, result :: results)
  end.

End DeletionExecutor.

(** ** Invariants of the heap *)

(** [c] is in the [children] array of the object at [p]. *)
Definition is_child (h : list Cell.t) (p c : nat) : Prop :=
  ∃ n, h !! p = Some n ∧ c ∈ Cell.children n.

(** [x] is [a] or lies below it. *)
Definition descends (h : list Cell.t) : relation nat := rtc (is_child h).

(** The objects form a forest in which a child is allocated after its
    parent and only folders have children. *)
Record forest (h : list Cell.t) : Prop := mkForest
  { forest_order : ∀ p c, is_child h p c → p < c < length h
  ; forest_parent : ∀ p p' c, is_child h p c → is_child h p' c → p = p'
  ; forest_nodup : ∀ p n, h !! p = Some n → NoDup (Cell.children n)
  ; forest_leaf : ∀ p n, h !! p = Some n → Cell.type n = node_modules →
                         Cell.children n = [] }.

(** No two of [nodes] have an object below both. *)
Definition independent (h : list Cell.t) (nodes : list nat) : Prop :=
  ∀ a b x, a ∈ nodes → b ∈ nodes → descends h a x → descends h b x → a = b.

(** An object without its [size]. *)
Definition shape (c : Cell.t) : Cell.t := Cell.set_size js_undefined c.

(** The size of the folder at [x] is the sum over its children. *)
Definition summed (h : list Cell.t) (x : nat) : Prop :=
  ∀ n, h !! x = Some n → Cell.type n = folder → Cell.children n ≠ [] →
       Cell.size n = js_number (sum_sizes h (Cell.children n)).

(** One turn of the [forEach] of [calculateFolderSizes]. *)
Definition visit (fuel : nat) (acc : option (list Cell.t)) (r : nat) : option (list Cell.t) :=
  h ← acc;
  node ← h !! r;
  match Cell.type node, Cell.children node with
  | folder, _ :: _ =>
      h ← calculateFolderSizes fuel (Cell.children node) h;
      Some (alter (Cell.set_size (js_number (sum_sizes h (Cell.children node)))) r h)
  | _, _ => Some h
  end.

(** What [calculateFolderSizes(nodes)] has done when it returns. *)
Definition sizes_done (h : list Cell.t) (nodes : list nat) (h' : list Cell.t) : Prop :=
  shape <$> h' = shape <$> h
  ∧ (∀ a x, a ∈ nodes → descends h a x → summed h' x)
  ∧ (∀ x, (∀ a, a ∈ nodes → ¬ descends h a x) → h' !! x = h !! x)
  ∧ (∀ x n, h !! x = Some n → Cell.type n = node_modules ∨ Cell.children n = [] →
            h' !! x = Some n).

Definition calc_ok (fuel : nat) : Prop :=
  ∀ nodes h, forest h → independent h nodes → NoDup nodes → 0 < fuel →
    (∀ r, r ∈ nodes → r < length h ∧ length h - r < fuel) →
    ∃ h', calculateFolderSizes fuel nodes h = Some h' ∧ sizes_done h nodes h'.

(** ** Invariants of the construction *)

(** An object without its [children]. *)
Definition core (c : Cell.t) : Cell.t := Cell.set_children [] c.

(** A reference held in [parentNode] is to a folder. *)
Definition folder_ref (h : list Cell.t) (parentNode : option nat) : Prop :=
  ∀ p, parentNode = Some p → ∃ n, h !! p = Some n ∧ Cell.type n = folder.

Record build_inv (b : BuildState) : Prop := mkBuildInv
  { inv_forest : forest (heap b)
  ; inv_roots_nodup : NoDup (rootNodes b)
  ; inv_roots : ∀ r, r ∈ rootNodes b → r < length (heap b) ∧ ∀ p, ¬ is_child (heap b) p r
  ; inv_cover : ∀ x n, heap b !! x = Some n → Cell.type n = folder →
                       x ∈ rootNodes b ∨ ∃ p, is_child (heap b) p x
  ; inv_fresh : ∀ x n, heap b !! x = Some n → Cell.type n = folder →
                       Cell.size n = js_number 0
  ; inv_map : ∀ currentPath r, treeMap b !! ("folder-" +:+ currentPath) = Some r →
                               folder_ref (heap b) (Some r) }.

(** The two ways in which the source hangs a new object into the
    structure: below [parentNode], or (folders only) into [rootNodes]. *)
Definition attach (parentNode : option nat) (key : string) (new : Cell.t) (add_root : bool)
    (b : BuildState) : BuildState :=
  let ref := length (heap b) in
  let h := heap b ++ [new] in
  let m := <[key := ref]> (treeMap b) in
  match parentNode with
  | Some parent => mkBuildState (push_child parent ref h) m (rootNodes b)
  | None => mkBuildState h m (if add_root then rootNodes b ++ [ref] else rootNodes b)
  end.

(** The [node_modules] objects of a heap, in allocation order, with the
    two fields they take from their scan item. *)
Definition nm_entry (c : Cell.t) : option (string * OptNumber) :=
  match Cell.type c with
  | node_modules => Some (Cell.path c, Cell.size c)
  | folder => None
  end.

Definition nm_cells (h : list Cell.t) : list (string * OptNumber) := omap nm_entry h.

Definition item_entry (item : ScanItem.t) : string * OptNumber :=
  (ScanItem.node_modules_path item, ScanItem.size item).

(** ** The finished tree *)

(** A node and everything below it. *)
Fixpoint subnodes (node : TreeNode.t) : list TreeNode.t :=
  node :: flat_map subnodes (TreeNode.children node).

(** [children.reduce((total, child) => total + (child.size || 0), 0)] on
    the finished value. *)
Definition tree_sum (children : list TreeNode.t) : N :=
  foldl (fun total child => (total + or_zero (TreeNode.size child))%N) 0%N children.

(** The tree node [node] is the object [c] read off the heap [h]. *)
Definition reads (h : list Cell.t) (c : Cell.t) (node : TreeNode.t) : Prop :=
  TreeNode.id node = Cell.id c ∧ TreeNode.name node = Cell.name c
  ∧ TreeNode.path node = Cell.path c ∧ TreeNode.type node = Cell.type c
  ∧ TreeNode.size node = Cell.size c ∧ TreeNode.isExpanded node = Cell.isExpanded c
  ∧ TreeNode.isSelected node = Cell.isSelected c ∧ TreeNode.level node = Cell.level c
  ∧ Forall2 (λ r child, ∃ cc, h !! r = Some cc ∧ TreeNode.size child = Cell.size cc)
      (Cell.children c) (TreeNode.children node).

(** The type and the path of every node of a forest, in document order. *)
Definition kind (node : TreeNode.t) : NodeType * string :=
  (TreeNode.type node, TreeNode.path node).

Definition kinds (nodes : list TreeNode.t) : list (NodeType * string) :=
  kind <$> flat_map subnodes nodes.

Definition selected_node_modules (p : string) (node : TreeNode.t) : Prop :=
  TreeNode.type node = node_modules ∧ TreeNode.isSelected node = true
  ∧ TreeNode.path node = p.

(** ** Further parts of the front end *)

(** *** truncatePath *)

(** A string as the sequence of its UTF-16 code units, which is what
    [length] and [substring] count. *)
Fixpoint code_units (s : string) : list N :=
  match s with
  | "" => []
  | String c rest => N_of_ascii c :: code_units rest
  end.

(** [String.prototype.substring(start, end)]: both arguments are clamped
    to the string and exchanged when [start] is the larger one. *)
Definition substring (s : list N) (start finish : Z) : list N :=
  let len := Z.of_nat (length s) in
  let a := Z.min (Z.max start 0) len in
  let b := Z.min (Z.max finish 0) len in
  take (Z.to_nat (Z.max a b - Z.min a b)) (drop (Z.to_nat (Z.min a b)) s).

(** [truncatePath(path, maxLength)] for an integer [maxLength];
    [path.substring(end)] runs to the end of the string. *)
Definition truncatePath (path : list N) (maxLength : Z) : list N :=
  if (Z.of_nat (length path) <=? maxLength)%Z then path
  else
    let start := (maxLength / 2 - 10)%Z in
    let finish := (Z.of_nat (length path) - maxLength / 2 + 10)%Z in
    substring path 0 start ++ code_units "..."
      ++ substring path finish (Z.of_nat (length path)).

(** *** The duration badge *)

(** A number that is an integer, in a template literal. *)
Definition js_integer (n : Z) : string :=
  if (n <? 0)%Z then "-" +:+ decimal (- n) else decimal n.

(** The text that the interval callback computes from
    [now.getTime() - scanStartTime.getTime()]. *)
Definition format_duration (duration : Z) : string :=
  let seconds := (duration / 1000)%Z in
  let minutes := (seconds / 60)%Z in
  let remainingSeconds := Z.rem seconds 60 in
  if (0 <? minutes)%Z
  then js_integer minutes +:+ "m " +:+ js_integer remainingSeconds +:+ "s"
  else js_integer seconds +:+ "s".

Definition setScanDuration (x : string) (s : AppState) : AppState :=
  mkAppState (scanScope s) (selectedFolder s) (selectedDrive s) (drives s) (includeSizes s)
    (isScanning s) (isDeleting s) (scanProgress s) (scanResults s) (treeData s)
    (selectedItems s) (showDeleteModal s) (deleteTarget s) (isDarkMode s) (scanStartTime s) x.

(** The effect on [isScanning, scanStartTime]: [Some start] when it
    installs the interval, otherwise it empties the badge. *)
Definition duration_effect (st : AppState) : AppState * option Z :=
  match isScanning st, scanStartTime st with
  | true, Some start => (st, Some start)
  | _, _ => (setScanDuration "" st, None)
  end.

(** *** Rows of the tree *)

(** The size badge of a row: rendered for a size that is present and
    positive. *)
Definition size_badge (node : TreeNode.t) : option string :=
  match TreeNode.size node with
  | js_number n => if (0 <? n)%N then Some (formatFileSize (js_number n)) else None
  | _ => None
  end.

(** The rows that [renderTreeNode] produces for a node, each with its
    depth: the node, and its children when it has some and is expanded. *)
Fixpoint rows (depth : nat) (node : TreeNode.t) : list (nat * TreeNode.t) :=
  (depth, node)
  :: match TreeNode.children node with
     | [] => []
     | children =>
         if TreeNode.isExpanded node then flat_map (rows (S depth)) children else []
     end.

(** [treeData.map((node) => renderTreeNode(node))] *)
Definition render_rows (nodes : list TreeNode.t) : list (nat * TreeNode.t) :=
  flat_map (rows 0) nodes.

(** *** Choosing a folder *)

Definition setSelectedFolder (x : string) (s : AppState) : AppState :=
  mkAppState (scanScope s) x (selectedDrive s) (drives s) (includeSizes s)
    (isScanning s) (isDeleting s) (scanProgress s) (scanResults s) (treeData s)
    (selectedItems s) (showDeleteModal s) (deleteTarget s) (isDarkMode s) (scanStartTime s)
    (scanDuration s).

(** The fallback of [handleBrowseFolder]: [prompt] returns a string or
    [null]. *)
Definition prompt_fallback (input : option string) (st : AppState) : AppState :=
  match input with
  | Some input =>
      if bool_decide (input = "") || bool_decide (trim input = "") then st
      else setSelectedFolder (trim input) st
  | None => st
  end.

(** [handleBrowseFolder]: the dialog command resolves with a path or
    [null], or is rejected; [input] is what the prompt returns if it is
    shown. *)
Definition handleBrowseFolder (reply : Settled (option string)) (input : option string)
    (st : AppState) : AppState * list Effect :=
  match reply with
  | resolved (Some result) =>
      if bool_decide (result = "") then (prompt_fallback input st, [])
      else (setSelectedFolder result st, [])
  | resolved None => (prompt_fallback input st, [])
  | rejected error =>
      (prompt_fallback input st, [console_error ("Failed to open folder dialog: " +:+ error)])
  end.

(** *** Sequences of events *)

(** The state after a series of [scan_progress] events. *)
Definition run_progress (events : list ScanProgress.t) (st : AppState) : AppState :=
  foldl (fun st progress => (on_scan_progress progress st).1) st events.

(** *** Properties of trees *)

(** A tree without its two flags. *)
Fixpoint skeleton (node : TreeNode.t) : TreeNode.t :=
  TreeNode.mk (TreeNode.id node) (TreeNode.name node) (TreeNode.path node)
    (TreeNode.type node) (skeleton <$> TreeNode.children node) (TreeNode.size node)
    false false (TreeNode.level node).

(** Every [node_modules] node is a leaf. *)
Definition node_modules_leaves (nodes : list TreeNode.t) : Prop :=
  ∀ n, n ∈ flat_map subnodes nodes → TreeNode.type n = node_modules →
       TreeNode.children n = [].

(** The project path of an item has a part that is not empty. *)
Definition has_part (item : ScanItem.t) : Prop :=
  ∃ part, part ∈ split_path (ScanItem.project_path item) ∧ part ≠ "".

(** Every object of [b] is still in [b'], with its fields other than
    [children] and with the parents it had. *)
Definition extends (b b' : BuildState) : Prop :=
  ∀ x c, heap b !! x = Some c →
    ∃ c', heap b' !! x = Some c' ∧ core c' = core c
          ∧ ∀ p, is_child (heap b) p x → is_child (heap b') p x.

(** The object at [x] is the [node_modules] node of [item] and hangs
    below a folder. *)
Definition shown (h : list Cell.t) (item : ScanItem.t) (x : nat) : Prop :=
  ∃ c p, h !! x = Some c ∧ is_child h p x
         ∧ Cell.type c = node_modules
         ∧ Cell.id c = "node_modules-" +:+ ScanItem.node_modules_path item
         ∧ Cell.name c = "node_modules"
         ∧ Cell.path c = ScanItem.node_modules_path item
         ∧ Cell.size c = ScanItem.size item.

(** The flags with which [buildTreeFromResults] creates an object. *)
Definition fresh (c : Cell.t) : Prop :=
  Cell.isSelected c = false
  ∧ Cell.isExpanded c = bool_decide (Cell.type c = folder ∧ Cell.level c < 2).

(** *** Where the nodes of the tree come from *)





(** *** What happens while a scan runs *)

(** Between the start of a scan and the reply of its command the
    application can receive progress events, the callbacks of the timers
    that earlier completion events have set (they are never cleared), and
    the late reply to the command of an earlier scan. *)
Inductive ScanEvent :=
  | ev_progress (progress : ScanProgress.t)
  | ev_timeout
  | ev_reply (reply : Settled (list ScanItem.t)).

Definition scan_step (st : AppState) (event : ScanEvent) : AppState :=
  match event with
  | ev_progress progress => (on_scan_progress progress st).1
  | ev_timeout => clear_scanStartTime st
  | ev_reply reply => (handleStartScan_settled reply st).1
  end.

Definition run_scan (events : list ScanEvent) (st : AppState) : AppState :=
  foldl scan_step st events.

Definition is_timeout (event : ScanEvent) : bool :=
  match event with
  | ev_timeout => true
  | _ => false
  end.

(** The events that leave [isScanning] as it is. *)
Definition keeps_scanning (event : ScanEvent) : bool :=
  match event with
  | ev_progress progress => negb (ScanProgress.is_complete progress)
  | ev_timeout => true
  | ev_reply (resolved _) => true
  | ev_reply (rejected _) => false
  end.

(** ** Sample inputs *)

Definition overshoot : ScanProgress.t :=
  ScanProgress.mk "/r/app" 2 1 0 0 false.

Definition with_scope (scope : ScanScope) (folder drive : string) (ds : list DriveInfo.t)
    (running : bool) : AppState :=
  mkAppState scope folder drive ds true running false initialProgress
    [ScanItem.mk "/old" "/old/node_modules" js_null] [] ["/old/node_modules"] false None false
    (Some 17%Z) "3s".

Definition kept_item : ScanItem.t :=
  ScanItem.mk "/r/app" "/r/app/node_modules" (js_number 1000).

Definition sample_fs : gmap string Entry :=
  {[ "/r/app" := directory
   ; "/r/app/package.json" := regular_file
   ; "/r/app/node_modules" := directory ]}.

Definition sample_trash (fs : gmap string Entry) (path : string)
  : option (gmap string Entry) :=
  Some (delete path fs).

Definition byte_order (a b : string) : Z :=
  match String.compare a b with
  | Lt => (-1)%Z
  | Eq => 0%Z
  | Gt => 1%Z
  end.

Definition sized_results : list ScanItem.t :=
  [ ScanItem.mk "/r/app/packages/x" "/r/app/packages/x/node_modules" (js_number 700)
  ; ScanItem.mk "/r/app" "/r/app/node_modules" (js_number 300)
  ; ScanItem.mk "/r/lib" "/r/lib/node_modules" js_null ].


(** The state once a scan has resolved and the tree has been rebuilt. *)
Definition loaded (results : list ScanItem.t) (tree : list TreeNode.t) : AppState :=
  mkAppState scope_folder "/a" "" [] false false false initialProgress results tree []
    false None false None "".

(** The tree of [sized_results], as the effect builds it. *)
Definition sized_tree : list TreeNode.t :=
  default [] (buildTreeFromResults byte_order sized_results).

(** Results at the root of a file system, and with an empty project path. *)
Definition rootless_results : list ScanItem.t :=
  [ ScanItem.mk "/" "/node_modules" (js_number 5)
  ; ScanItem.mk "" "node_modules" js_null ].

(** * Verification *)

(** ** Sizes and progress *)

Lemma scale_loop_bounds fuel size unitIndex :
  (0 <= size)%Q → unitIndex ≤ length units - 1 →
  (0 <= (scale_loop fuel size unitIndex).1)%Q
  ∧ (scale_loop fuel size unitIndex).2 ≤ length units - 1.
Proof.
  revert size unitIndex. induction fuel as [|fuel IH]; intros size unitIndex Hs Hu; [simpl; auto|].
  cbn [scale_loop].
  destruct (Qle_bool 1024 size && (unitIndex <? length units - 1)%nat) eqn:Hguard; [|simpl; auto].
  apply andb_true_iff in Hguard as [_ Hlt]. apply Nat.ltb_lt in Hlt.
  apply IH; [|lia].
  apply Qle_shift_div_l; [reflexivity|]. by rewrite Qmult_0_l.
Qed.

(** The fuel never cuts the loop short: at the returned pair the loop
    condition is false. *)
Lemma scale_loop_exit fuel size unitIndex :
  length units - 1 - unitIndex < fuel →
  let '(size', unitIndex') := scale_loop fuel size unitIndex in
  Qle_bool 1024 size' && (unitIndex' <? length units - 1)%nat = false.
Proof.
  revert size unitIndex. induction fuel as [|fuel IH]; intros size unitIndex Hfuel; [lia|].
  cbn [scale_loop].
  destruct (Qle_bool 1024 size && (unitIndex <? length units - 1)%nat) eqn:Hguard; [|done].
  apply andb_true_iff in Hguard as [_ Hlt]. apply Nat.ltb_lt in Hlt.
  apply IH. simpl in *. lia.
Qed.

Lemma string_app_assoc (a b c : string) : (a +:+ b) +:+ c = a +:+ b +:+ c.
Proof.
  induction a as [|x a IH]; [reflexivity|].
  change (String x ((a +:+ b) +:+ c) = String x (a +:+ b +:+ c)). by f_equal.
Qed.

Lemma decimal_head n : ∃ c rest, decimal n = String c rest ∧ c ≠ ascii_of_nat 226.
Proof.
  unfold decimal. destruct (N.to_uint (Z.to_N n)); simpl; eauto.
Qed.

Lemma formatFileSize_number b :
  ∃ whole tenth unit,
    formatFileSize (js_number b) = decimal whole +:+ "." +:+ decimal tenth +:+ " " +:+ unit
    ∧ (0 ≤ whole)%Z ∧ (0 ≤ tenth < 10)%Z ∧ unit ∈ units.
Proof.
  unfold formatFileSize.
  assert (Hb : (0 <= inject_Z (Z.of_N b))%Q).
  { change 0%Q with (inject_Z 0). rewrite <- Zle_Qle. lia. }
  destruct (scale_loop_bounds (length units) (inject_Z (Z.of_N b)) 0 Hb) as [Hsize Hunit];
    [simpl; lia|].
  destruct (scale_loop (length units) (inject_Z (Z.of_N b)) 0) as [size unitIndex].
  simpl in Hsize, Hunit.
  unfold toFixed1. apply Qle_bool_iff in Hsize as Hsize'. rewrite Hsize'.
  unfold toFixed1_nonneg.
  set (n := Qfloor (size * 10 + (1 # 2))%Q).
  assert (Hn : (0 ≤ n)%Z).
  { change 0%Z with (Qfloor 0). apply Qfloor_resp_le.
    apply Qle_trans with (size * 10)%Q.
    - apply Qmult_le_0_compat; [done|discriminate].
    - rewrite <- (Qplus_0_r (size * 10)) at 1. apply Qplus_le_r. discriminate. }
  destruct (lookup_lt_is_Some_2 units unitIndex) as [unit Hlookup]; [simpl in *; lia|].
  exists (n / 10)%Z, (n mod 10)%Z, unit. rewrite Hlookup. simpl default.
  split; [|split; [|split]].
  - by rewrite !string_app_assoc.
  - apply Z.div_pos; lia.
  - apply Z.mod_pos_bound. lia.
  - by eapply list_elem_of_lookup_2.
Qed.

(** C6 (amended): [formatFileSize] gives the placeholder exactly when its
    input is absent ([null] or [undefined]); every present byte count is
    printed as a decimal number with one fractional digit, a space and one
    of the units, and zero bytes as "0.0 B", so the results of the function
    for an absent size and for zero differ.  The row of the tree, its only
    caller, shows no size badge exactly when the size is absent or zero,
    and otherwise the result of the function. *)
Theorem formatFileSize_placeholder_iff_absent :
  (∀ bytes, formatFileSize bytes = "—" ↔ bytes = js_null ∨ bytes = js_undefined)
  ∧ (∀ b, ∃ whole tenth unit,
        formatFileSize (js_number b)
          = decimal whole +:+ "." +:+ decimal tenth +:+ " " +:+ unit
        ∧ (0 ≤ whole)%Z ∧ (0 ≤ tenth < 10)%Z ∧ unit ∈ units)
  ∧ formatFileSize (js_number 0) = "0.0 B"
  ∧ (∀ node, size_badge node = None
             ↔ TreeNode.size node = js_null ∨ TreeNode.size node = js_undefined
               ∨ TreeNode.size node = js_number 0)
  ∧ (∀ node b, TreeNode.size node = js_number b → (0 < b)%N →
               size_badge node = Some (formatFileSize (js_number b))).
Proof.
  split; [|split; [apply formatFileSize_number|split; [by vm_compute|]]].
  - intros [| |b]; [split; auto..|].
    split; [|by intros [|]].
    destruct (formatFileSize_number b) as (whole & tenth & unit & -> & _).
    destruct (decimal_head whole) as (c & rest & -> & Hc).
    intros Heq. exfalso. apply Hc. by injection Heq.
  - split.
    + intros node. unfold size_badge.
      destruct (TreeNode.size node) as [| |b]; [split; auto..|].
      destruct (0 <? b)%N eqn:Hb.
      * apply N.ltb_lt in Hb. split; [done|]. intros [|[|[= ->]]]; [done..|lia].
      * apply N.ltb_ge in Hb. split; [|done]. intros _. do 2 right. f_equal. lia.
    + intros node b Hsize Hb. unfold size_badge. rewrite Hsize.
      by rewrite (proj2 (N.ltb_lt _ _) Hb).
Qed.

(** C6 as stated: in the tree built for [sized_results] the
    [node_modules] directory of [/r/lib] has no size and the folder
    [/r/lib] has size zero, and their rows look the same: neither has a
    size badge. *)
Lemma absent_size_shown_like_zero :
  let absent := TreeNode.mk "node_modules-/r/lib/node_modules" "node_modules"
                  "/r/lib/node_modules" node_modules [] js_null false false 3 in
  let zero := TreeNode.mk "folder-r/lib" "lib" "/r/lib" folder [absent] (js_number 0)
                false false 2 in
  absent ∈ flat_map subnodes sized_tree ∧ zero ∈ flat_map subnodes sized_tree
  ∧ size_badge absent = size_badge zero.
Proof.
  split; [|split; [|reflexivity]]; vm_compute.
  - do 7 apply list_elem_of_further. apply list_elem_of_here.
  - do 6 apply list_elem_of_further. apply list_elem_of_here.
Qed.

Lemma progress_divisor_pos p : (1 ≤ progress_divisor p)%N.
Proof. unfold progress_divisor. lia. Qed.

(** The bar is clamped: whenever it is rendered its width is at most 100. *)
Lemma progress_bar_width_le_100 p w :
  progress_bar_width p = Some w → (w <= 100)%Q.
Proof.
  unfold progress_bar_width. case_match; [|done].
  intros [= <-]. apply Q.le_min_r.
Qed.

(** The label stays within 100 as long as the count does not pass the
    estimate. *)
Lemma progress_label_le_100 p l :
  (ScanProgress.folders_scanned p ≤ ScanProgress.total_folders_estimated p)%N →
  progress_label p = Some l → (l ≤ 100)%Z.
Proof.
  intros Hle. unfold progress_label. case_match eqn:Hpos; [|done].
  apply N.ltb_lt in Hpos. intros [= <-].
  change 100%Z with (Qfloor (100 + (1 # 2))%Q). unfold Math_round.
  apply Qfloor_resp_le, Qplus_le_l.
  unfold progress_ratio, progress_divisor. rewrite N.max_l by lia.
  change 100%Q with (1 * 100)%Q at 2. apply Qmult_le_compat_r; [|done].
  apply Qle_shift_div_r.
  - change 0%Q with (inject_Z 0). rewrite <- Zlt_Qlt. lia.
  - rewrite Qmult_1_l, <- Zle_Qle. lia.
Qed.

(** C7: with 2 folders scanned against an estimate of 1 the divisor is 1
    and the bar is clamped to a width of 100, but the number printed in
    front of the percent sign is 200. *)
Theorem progress_label_not_clamped :
  progress_divisor overshoot = 1%N
  ∧ progress_bar_width overshoot = Some 100%Q
  ∧ progress_label overshoot = Some 200%Z.
Proof. by vm_compute. Qed.

Example formatFileSize_examples :
  formatFileSize (js_number 1023) = "1023.0 B"
  ∧ formatFileSize (js_number 1536) = "1.5 KB"
  ∧ formatFileSize (js_number 1048576) = "1.0 MB"
  ∧ formatFileSize js_undefined = "—".
Proof. by vm_compute. Qed.

Example split_path_examples :
  split_path "C:\Users/me" = ["C:"; "Users"; "me"]
  ∧ split_path "/r/app" = [""; "r"; "app"]
  ∧ split_path "" = [""].
Proof. by vm_compute. Qed.

Example trim_examples :
  trim "  /home/me/code " = "/home/me/code" ∧ trim (" " +:+ utf8 [194; 160; 10]) = "".
Proof. by vm_compute. Qed.

(** ** Scan and deletion handlers *)

(** C8: a [scan_progress] event ends the scanning state exactly when its
    completion flag is set; an event without the flag leaves [isScanning]
    as it was. *)
Theorem on_scan_progress_isScanning (progress : ScanProgress.t) (st : AppState) :
  isScanning (on_scan_progress progress st).1
  = if ScanProgress.is_complete progress then false else isScanning st.
Proof. unfold on_scan_progress. by destruct (ScanProgress.is_complete progress). Qed.

(** C3: while a scan is running, a start request changes no state and
    issues no effect, so no second scan is invoked. *)
Theorem handleStartScan_while_scanning (now : Z) (st : AppState) :
  isScanning st = true → handleStartScan now st = (st, []).
Proof. intros H. unfold handleStartScan. by rewrite H. Qed.

Lemma handleStartScan_while_scanning_witness :
  let st := with_scope scope_drive "" "D:\" [] true in
  isScanning st = true ∧ handleStartScan 1000 st = (st, []).
Proof.
  split; [reflexivity|]. apply handleStartScan_while_scanning. reflexivity.
Defined.

(** C4: a start request whose root list comes out empty (a blank folder
    input, no drive chosen, or no drive listed for the entire computer)
    leaves the state as it is and invokes no scan; its only effect is an
    alert. *)
Theorem handleStartScan_no_roots (now : Z) (st : AppState) :
  (scanScope st = scope_folder ∧ trim (selectedFolder st) = "")
  ∨ (scanScope st = scope_drive ∧ selectedDrive st = "")
  ∨ (scanScope st = scope_entire ∧ drives st = []) →
  (handleStartScan now st).1 = st
  ∧ ∀ effect, effect ∈ (handleStartScan now st).2 → ∃ message, effect = alert message.
Proof.
  intros H. unfold handleStartScan, scope_roots.
  destruct (isScanning st); [split; [done|by intros ? ?%elem_of_nil]|].
  destruct H as [[-> ->]|[[-> ->]|[-> ->]]]; simpl;
    (split; [done|]; intros effect ->%list_elem_of_singleton; eauto).
Qed.

Lemma handleStartScan_no_roots_witness :
  let st := with_scope scope_folder "  " "" [] false in
  (handleStartScan 1000 st).1 = st
  ∧ ∀ effect, effect ∈ (handleStartScan 1000 st).2 → ∃ message, effect = alert message.
Proof.
  apply handleStartScan_no_roots. left. split; [reflexivity|by vm_compute].
Defined.

(** C5: when a scan is started, the roots handed to
    [start_scan_with_progress] are, for the entire computer, the paths of
    the listed drives, one per drive and in their order; for a folder, the
    trimmed folder input alone; for a drive, the selected drive alone. *)
Theorem handleStartScan_roots (now : Z) (st : AppState) :
  isScanning st = false →
  match scanScope st with
  | scope_entire =>
      drives st ≠ [] →
      (handleStartScan now st).2
      = [invoke_start_scan_with_progress (DriveInfo.path <$> drives st) (includeSizes st)]
  | scope_folder =>
      trim (selectedFolder st) ≠ "" →
      (handleStartScan now st).2
      = [invoke_start_scan_with_progress [trim (selectedFolder st)] (includeSizes st)]
  | scope_drive =>
      selectedDrive st ≠ "" →
      (handleStartScan now st).2
      = [invoke_start_scan_with_progress [selectedDrive st] (includeSizes st)]
  end.
Proof.
  intros Hidle. unfold handleStartScan, scope_roots. rewrite Hidle.
  destruct (scanScope st); intros Hne.
  - by rewrite bool_decide_eq_false_2.
  - by rewrite bool_decide_eq_false_2.
  - destruct (drives st) as [|d ds]; [done|]. reflexivity.
Qed.

Lemma handleStartScan_roots_witness :
  let st := with_scope scope_entire "" ""
              [DriveInfo.mk "C:\" "Local Disk (C:)"; DriveInfo.mk "D:\" "Data (D:)"] false in
  (handleStartScan 1000 st).2 = [invoke_start_scan_with_progress ["C:\"; "D:\"] true].
Proof.
  intros st. pose proof (handleStartScan_roots 1000 st eq_refl) as H.
  apply H. discriminate.
Defined.

(** What the update keeps: the entries that no failed result names. *)
Lemma remove_deleted_spec results prev item :
  item ∈ remove_deleted results prev
  ↔ item ∈ prev
    ∧ ¬ ∃ r, r ∈ results ∧ DeleteResult.success r = false
             ∧ DeleteResult.path r = ScanItem.node_modules_path item.
Proof.
  unfold remove_deleted, failedPaths. rewrite list_elem_of_filter, list_elem_of_fmap.
  setoid_rewrite list_elem_of_filter. split.
  - intros [Hnot Hin]. split; [done|]. intros (r & Hr & Hfail & Hpath). apply Hnot. eauto.
  - intros [Hin Hnot]. split; [|done]. intros (r & Hpath & Hfail & Hr). apply Hnot. eauto.
Qed.

(** C1: after a batch in which [/r/app/node_modules] was deleted, the
    update of the scan results keeps its entry; after a batch in which the
    deletion failed, the update drops the entry. *)
Theorem remove_deleted_keeps_success :
  remove_deleted [DeleteResult.mk "/r/app/node_modules" true None] [kept_item] = [kept_item]
  ∧ remove_deleted [DeleteResult.mk "/r/app/node_modules" false (Some "locked")] [kept_item]
    = [].
Proof. by vm_compute. Qed.

(** ** The deletion executor *)

Lemma delete_one_refused move_to_trash fs p :
  basename p ≠ "node_modules" →
  delete_one move_to_trash fs p
  = (fs, DeleteResult.mk p false (Some "not a node_modules directory")).
Proof. intros H. unfold delete_one. by rewrite bool_decide_eq_false_2. Qed.

(** C2: a requested path whose basename is not exactly [node_modules] gets
    a result with [success: false]; handling it leaves every file system
    untouched, and the file system after the batch is the one the batch
    without that path produces. *)
Theorem delete_refuses_other_basenames
    (move_to_trash : gmap string Entry → string → option (gmap string Entry))
    (fs : gmap string Entry) (paths : list string) (i : nat) (p : string) :
  paths !! i = Some p → basename p ≠ "node_modules" →
  (∃ r, (delete_node_modules move_to_trash paths fs).2 !! i = Some r
        ∧ DeleteResult.path r = p ∧ DeleteResult.success r = false)
  ∧ (∀ fs0, (delete_one move_to_trash fs0 p).1 = fs0)
  ∧ (delete_node_modules move_to_trash paths fs).1
    = (delete_node_modules move_to_trash (delete i paths) fs).1.
Proof.
  intros Hi Hp. split; [|split].
  - revert i fs Hi. induction paths as [|q paths IH]; intros i fs Hi; [done|].
    simpl. destruct (delete_one move_to_trash fs q) as [fs1 r1] eqn:Hq.
    destruct (delete_node_modules move_to_trash paths fs1) as [fs2 rs] eqn:Hrest.
    destruct i as [|i]; simpl in *.
    + injection Hi as ->. rewrite delete_one_refused in Hq by done.
      injection Hq as <- <-. eauto.
    + specialize (IH i fs1 Hi). by rewrite Hrest in IH.
  - intros fs0. by rewrite delete_one_refused.
  - revert i fs Hi. induction paths as [|q paths IH]; intros i fs Hi; [done|].
    destruct i as [|i]; simpl in *.
    + injection Hi as ->. rewrite delete_one_refused by done.
      by destruct (delete_node_modules move_to_trash paths fs).
    + destruct (delete_one move_to_trash fs q) as [fs1 r1].
      specialize (IH i fs1 Hi).
      destruct (delete_node_modules move_to_trash paths fs1),
        (delete_node_modules move_to_trash (delete i paths) fs1). done.
Qed.

Lemma delete_refuses_other_basenames_witness :
  let paths := ["/r/app"; "/r/app/node_modules"] in
  (∃ r, (delete_node_modules sample_trash paths sample_fs).2 !! 0 = Some r
        ∧ DeleteResult.path r = "/r/app" ∧ DeleteResult.success r = false)
  ∧ (∀ fs0, (delete_one sample_trash fs0 "/r/app").1 = fs0)
  ∧ (delete_node_modules sample_trash paths sample_fs).1
    = (delete_node_modules sample_trash (delete 0 paths) sample_fs).1.
Proof.
  apply delete_refuses_other_basenames; [reflexivity|by vm_compute].
Defined.

(** ** The size calculation on the heap *)

Lemma calculateFolderSizes_unfold fuel nodes h :
  calculateFolderSizes (S fuel) nodes h = foldl (visit fuel) (Some h) nodes.
Proof. reflexivity. Qed.

Section Forest.
Context (h : list Cell.t) (Hf : forest h).

Lemma descends_le a x : descends h a x → a ≤ x.
Proof.
  induction 1 as [|a b x Hab _ IH]; [done|].
  apply (forest_order h Hf) in Hab. lia.
Qed.

Lemma descends_chain a b x :
  descends h a x → descends h b x → descends h a b ∨ descends h b a.
Proof.
  unfold descends. intros Ha. revert b. revert x Ha.
  apply (rtc_ind_r (λ x, ∀ b, rtc (is_child h) b x →
                          rtc (is_child h) a b ∨ rtc (is_child h) b a)).
  - by right.
  - intros x y Hax Hxy IH b Hb.
    apply rtc_inv_r in Hb as [->|(y' & Hby' & Hy'y)].
    + left. by eapply rtc_r.
    + assert (y' = x) as -> by eauto using forest_parent. by apply IH.
Qed.

Lemma siblings_independent p n :
  h !! p = Some n → independent h (Cell.children n).
Proof.
  intros Hp.
  assert (∀ a b, is_child h p a → is_child h p b → descends h a b → a = b) as Haux.
  { intros a b Ha Hb Hab. apply rtc_inv_r in Hab as [->|(y & Hay & Hyb)]; [done|].
    assert (y = p) as -> by eauto using forest_parent.
    apply descends_le in Hay. apply (forest_order h Hf) in Ha. lia. }
  intros a b x Ha Hb Hax Hbx.
  assert (Hpa : is_child h p a) by (by exists n).
  assert (Hpb : is_child h p b) by (by exists n).
  destruct (descends_chain a b x Hax Hbx); [|symmetry]; eauto.
Qed.

Lemma roots_independent roots :
  (∀ r p, r ∈ roots → ¬ is_child h p r) → independent h roots.
Proof.
  intros Hroots.
  assert (∀ a b, b ∈ roots → descends h a b → a = b) as Haux.
  { intros a b Hb Hab. apply rtc_inv_r in Hab as [->|(y & Hay & Hyb)]; [done|].
    by destruct (Hroots b y). }
  intros a b x Ha Hb Hax Hbx.
  destruct (descends_chain a b x Hax Hbx); [|symmetry]; eauto.
Qed.

(** An object without children has nothing below it. *)
Lemma descends_leaf a x n :
  h !! a = Some n → Cell.children n = [] → descends h a x → x = a.
Proof.
  intros Ha Hn Hax. apply rtc_inv in Hax as [->|(c & (n' & Hn' & Hc) & _)]; [done|].
  rewrite Ha in Hn'. injection Hn' as <-. rewrite Hn in Hc. by apply elem_of_nil in Hc.
Qed.

End Forest.

(** *** Objects that differ in their sizes only *)

Lemma shape_fields n n' :
  shape n' = shape n →
  Cell.id n' = Cell.id n ∧ Cell.name n' = Cell.name n ∧ Cell.path n' = Cell.path n
  ∧ Cell.type n' = Cell.type n ∧ Cell.children n' = Cell.children n
  ∧ Cell.isExpanded n' = Cell.isExpanded n ∧ Cell.isSelected n' = Cell.isSelected n
  ∧ Cell.level n' = Cell.level n.
Proof.
  destruct n, n'. unfold shape, Cell.set_size. simpl.
  by intros [= -> -> -> -> -> -> -> ->].
Qed.

Lemma shape_set_size s n : shape (Cell.set_size s n) = shape n.
Proof. by destruct n. Qed.

Lemma same_shape_length (h h' : list Cell.t) : shape <$> h' = shape <$> h → length h' = length h.
Proof. intros H. by rewrite <- (length_fmap shape h'), H, length_fmap. Qed.

Lemma same_shape_lookup (h h' : list Cell.t) x n :
  shape <$> h' = shape <$> h → h !! x = Some n →
  ∃ n', h' !! x = Some n' ∧ shape n' = shape n.
Proof.
  intros H Hx.
  assert ((shape <$> h') !! x = Some (shape n)) as Hx'.
  { by rewrite H, list_lookup_fmap, Hx. }
  rewrite list_lookup_fmap in Hx'.
  destruct (h' !! x) as [n'|]; [|done]. apply (inj Some) in Hx'. eauto.
Qed.

Lemma same_shape_is_child (h h' : list Cell.t) p c :
  shape <$> h' = shape <$> h → is_child h p c → is_child h' p c.
Proof.
  intros H (n & Hp & Hc).
  destruct (same_shape_lookup h h' p n H Hp) as (n' & Hp' & Hn').
  exists n'. split; [done|]. apply shape_fields in Hn' as (_&_&_&_&->&_). done.
Qed.

Lemma same_shape_descends (h h' : list Cell.t) a x :
  shape <$> h' = shape <$> h → descends h a x → descends h' a x.
Proof.
  intros H. apply rtc_subrel. intros p c. by apply same_shape_is_child.
Qed.

Lemma same_shape_forest (h h' : list Cell.t) :
  shape <$> h' = shape <$> h → forest h → forest h'.
Proof.
  intros H Hf. assert (H' : shape <$> h = shape <$> h') by done.
  split.
  - intros p c Hpc%(same_shape_is_child h' h); [|done].
    rewrite (same_shape_length h h' H). by apply (forest_order h Hf).
  - intros p p' c Hpc%(same_shape_is_child h' h) Hp'c%(same_shape_is_child h' h); [|done..].
    by eapply (forest_parent h Hf).
  - intros p n' Hp. destruct (same_shape_lookup h' h p n' H' Hp) as (n & Hn & Heq).
    apply shape_fields in Heq as (_&_&_&_&Hc&_). rewrite <- Hc.
    by eapply (forest_nodup h Hf).
  - intros p n' Hp Hty. destruct (same_shape_lookup h' h p n' H' Hp) as (n & Hn & Heq).
    apply shape_fields in Heq as (_&_&_&Ht&Hc&_). rewrite <- Hc.
    eapply (forest_leaf h Hf); [done|congruence].
Qed.

Lemma same_shape_independent (h h' : list Cell.t) nodes :
  shape <$> h' = shape <$> h → independent h nodes → independent h' nodes.
Proof.
  intros H Hi a b x Ha Hb Hax Hbx.
  apply (Hi a b x); [done..| |]; by apply (same_shape_descends h' h).
Qed.

Lemma shape_alter_size s r (h : list Cell.t) :
  shape <$> alter (Cell.set_size s) r h = shape <$> h.
Proof.
  apply list_eq. intros i. rewrite !list_lookup_fmap.
  destruct (decide (i = r)) as [->|Hne].
  - rewrite list_lookup_alter_eq. destruct (h !! r); [|done]. simpl. by rewrite shape_set_size.
  - by rewrite list_lookup_alter_ne.
Qed.

Lemma sum_sizes_ext (h1 h2 : list Cell.t) children :
  (∀ c, c ∈ children → h1 !! c = h2 !! c) → sum_sizes h1 children = sum_sizes h2 children.
Proof.
  unfold sum_sizes. generalize 0%N.
  induction children as [|c children IH]; intros total H; [done|].
  cbn [foldl].
  replace (size_at h1 c) with (size_at h2 c)
    by (unfold size_at; by rewrite (H c) by apply list_elem_of_here).
  apply IH. intros c' Hc'. apply H. by apply list_elem_of_further.
Qed.

Lemma visit_spec fuel (h : list Cell.t) r :
  calc_ok fuel → forest h → r < length h → length h - r < S fuel →
  ∃ h1, visit fuel (Some h) r = Some h1 ∧ sizes_done h [r] h1.
Proof.
  intros IH Hf Hr Hfuel.
  destruct (lookup_lt_is_Some_2 h r Hr) as [node Hnode].
  unfold visit. simpl. rewrite Hnode. simpl.
  assert (Cell.type node = node_modules ∨ Cell.children node = []
          ∨ (Cell.type node = folder ∧ Cell.children node ≠ [])) as [Hty|[Hch|[Hty Hch]]].
  { destruct (Cell.type node), (Cell.children node); auto. }
  - (* a node_modules object: nothing to do *)
    rewrite Hty. exists h. split; [done|].
    pose proof (forest_leaf h Hf r node Hnode Hty) as Hch.
    split; [done|split; [|split; [done|done]]].
    intros a x ->%list_elem_of_singleton Hax.
    apply (descends_leaf h r x node Hnode Hch) in Hax as ->.
    intros n Hn Hfolder. rewrite Hnode in Hn. injection Hn as <-. congruence.
  - (* a folder without children *)
    rewrite Hch. exists h. split; [by destruct (Cell.type node)|].
    split; [done|split; [|split; [done|done]]].
    intros a x ->%list_elem_of_singleton Hax.
    apply (descends_leaf h r x node Hnode Hch) in Hax as ->.
    intros n Hn _ Hne. rewrite Hnode in Hn. injection Hn as <-. done.
  - (* a folder with children *)
    rewrite Hty. destruct (Cell.children node) as [|c0 cs] eqn:Hcs; [done|].
    rewrite <- Hcs in *. clear Hch.
    assert (Hchildren : ∀ c, c ∈ Cell.children node → is_child h r c).
    { intros c Hc. by exists node. }
    destruct (IH (Cell.children node) h) as (h2 & Hcalc & Hshape & Hsum & Hout & Hkeep).
    + done.
    + by eapply siblings_independent.
    + by eapply forest_nodup.
    + assert (is_child h r c0) as Hc0%(forest_order h Hf).
      { apply Hchildren. rewrite Hcs. apply list_elem_of_here. }
      lia.
    + intros c Hc%Hchildren%(forest_order h Hf). lia.
    + rewrite Hcalc. simpl. eexists. split; [done|].
      set (s := js_number (sum_sizes h2 (Cell.children node))).
      assert (Hother : ∀ x, x ≠ r → alter (Cell.set_size s) r h2 !! x = h2 !! x).
      { intros x Hx. by rewrite list_lookup_alter_ne. }
      assert (Hbelow : ∀ x c, descends h r x → is_child h x c → c ≠ r).
      { intros x c Hrx%(descends_le h Hf) Hxc%(forest_order h Hf). lia. }
      assert (Hf2 : forest h2) by (by eapply same_shape_forest).
      split; [|split; [|split]].
      * by rewrite shape_alter_size.
      * intros a x ->%list_elem_of_singleton Hax n Hn Hfolder Hne.
        assert (Hsame : sum_sizes (alter (Cell.set_size s) r h2) (Cell.children n)
                        = sum_sizes h2 (Cell.children n)).
        { apply sum_sizes_ext. intros c Hc. apply Hother.
          apply (Hbelow x c Hax).
          destruct (decide (x = r)) as [->|Hxr].
          - rewrite list_lookup_alter_eq in Hn.
            destruct (same_shape_lookup h h2 r node Hshape Hnode) as (n2 & Hn2 & Heq).
            rewrite Hn2 in Hn. simpl in Hn. injection Hn as <-.
            apply shape_fields in Heq as (_&_&_&_&Heq&_).
            exists node. split; [done|]. by rewrite <- Heq.
          - rewrite Hother in Hn by done.
            apply (same_shape_is_child h2 h); [done|]. by exists n. }
        rewrite Hsame.
        destruct (decide (x = r)) as [->|Hxr].
        -- rewrite list_lookup_alter_eq in Hn.
           destruct (same_shape_lookup h h2 r node Hshape Hnode) as (n2 & Hn2 & Heq).
           rewrite Hn2 in Hn. simpl in Hn. injection Hn as <-.
           apply shape_fields in Heq as (_&_&_&_&Heq&_).
           simpl. destruct n2; simpl in *. subst s. by rewrite Heq.
        -- rewrite Hother in Hn by done.
           apply rtc_inv in Hax as [->|(c & Hrc & Hcx)]; [done|].
           destruct Hrc as (node' & Hnode' & Hc). rewrite Hnode in Hnode'.
           injection Hnode' as <-. by eapply Hsum.
      * intros x Hx.
        assert (x ≠ r) as Hxr.
        { intros ->. eapply Hx; [apply list_elem_of_here|]. by apply rtc_refl. }
        rewrite Hother by done. apply Hout.
        intros c Hc Hcx. eapply Hx; [apply list_elem_of_here|].
        eapply rtc_l; [by apply Hchildren|done].
      * intros x n Hn Hleaf.
        assert (x ≠ r) as Hxr.
        { intros ->. rewrite Hnode in Hn. injection Hn as <-.
          destruct Hleaf as [?|Hnil]; [congruence|]. by rewrite Hnil in Hcs. }
        rewrite Hother by done. by eapply Hkeep.
Qed.

Lemma foldl_visit_None fuel nodes : foldl (visit fuel) None nodes = None.
Proof. by induction nodes. Qed.

Lemma foldl_visit_spec fuel nodes (h : list Cell.t) :
  calc_ok fuel → forest h → independent h nodes → NoDup nodes →
  (∀ r, r ∈ nodes → r < length h ∧ length h - r < S fuel) →
  ∃ h', foldl (visit fuel) (Some h) nodes = Some h' ∧ sizes_done h nodes h'.
Proof.
  intros IH. revert h. induction nodes as [|r rest IHrest]; intros h Hf Hind Hnodup Hfuel.
  { exists h. split; [done|]. split; [done|]. split; [|done].
    by intros a x ?%elem_of_nil. }
  destruct (Hfuel r) as [Hr Hrf]; [apply list_elem_of_here|].
  destruct (visit_spec fuel h r IH Hf Hr Hrf) as (h1 & Hvisit & Hshape1 & Hsum1 & Hout1 & Hkeep1).
  apply NoDup_cons in Hnodup as [Hnotin Hnodup].
  destruct (IHrest h1) as (h' & Hfold & Hshape & Hsum & Hout & Hkeep).
  - by eapply same_shape_forest.
  - eapply same_shape_independent; [done|].
    intros a b x Ha Hb. apply Hind; by apply list_elem_of_further.
  - done.
  - intros r' Hr'. rewrite (same_shape_length h h1 Hshape1).
    apply Hfuel. by apply list_elem_of_further.
  - exists h'. cbn [foldl]. rewrite Hvisit. split; [done|].
    assert (Hdesc1 : ∀ a x, descends h1 a x → descends h a x).
    { intros a x. by apply same_shape_descends. }
    assert (Hdesc : ∀ a x, descends h a x → descends h1 a x).
    { intros a x. by apply same_shape_descends. }
    assert (Hapart : ∀ x, descends h r x → ∀ a, a ∈ rest → ¬ descends h1 a x).
    { intros x Hrx a Ha Hax%Hdesc1.
      assert (a = r) as ->; [|done].
      apply (Hind a r x); [by apply list_elem_of_further|apply list_elem_of_here|done..]. }
    split; [|split; [|split]].
    + by rewrite Hshape.
    + intros a x [->|Ha]%elem_of_cons Hax.
      * (* below the first node: the later turns leave it alone *)
        intros n Hn Hfolder Hne.
        rewrite (Hout x (Hapart x Hax)) in Hn.
        rewrite (sum_sizes_ext h' h1).
        -- eapply Hsum1; [apply list_elem_of_here|done..].
        -- intros c Hc. apply Hout, Hapart.
           eapply rtc_r; [done|]. apply (same_shape_is_child h1 h); [done|]. by exists n.
      * eapply Hsum; [done|]. by apply Hdesc.
    + intros x Hx. rewrite Hout.
      * apply Hout1. intros a ->%list_elem_of_singleton. apply Hx, list_elem_of_here.
      * intros a Ha Hax%Hdesc1. eapply Hx; [|done]. by apply list_elem_of_further.
    + intros x n Hn Hleaf. eapply Hkeep; [|done]. by eapply Hkeep1.
Qed.

Lemma calculateFolderSizes_spec fuel : calc_ok fuel.
Proof.
  induction fuel as [|fuel IH]; intros nodes h Hf Hind Hnodup Hpos Hfuel; [lia|].
  rewrite calculateFolderSizes_unfold. by apply foldl_visit_spec.
Qed.

Lemma core_fields n n' :
  core n' = core n →
  Cell.id n' = Cell.id n ∧ Cell.name n' = Cell.name n ∧ Cell.path n' = Cell.path n
  ∧ Cell.type n' = Cell.type n ∧ Cell.size n' = Cell.size n
  ∧ Cell.isExpanded n' = Cell.isExpanded n ∧ Cell.isSelected n' = Cell.isSelected n
  ∧ Cell.level n' = Cell.level n.
Proof.
  destruct n, n'. unfold core, Cell.set_children. simpl.
  by intros [= -> -> -> -> -> -> -> ->].
Qed.

Lemma core_push_child parent child (h : list Cell.t) :
  core <$> push_child parent child h = core <$> h.
Proof.
  apply list_eq. intros i. unfold push_child. rewrite !list_lookup_fmap.
  destruct (decide (i = parent)) as [->|Hne].
  - rewrite list_lookup_alter_eq. destruct (h !! parent) as [[]|]; done.
  - by rewrite list_lookup_alter_ne.
Qed.

Lemma core_attach parentNode key new add_root b :
  core <$> heap (attach parentNode key new add_root b) = (core <$> heap b) ++ [core new].
Proof.
  unfold attach. destruct parentNode; simpl.
  - by rewrite core_push_child, fmap_app.
  - by rewrite fmap_app.
Qed.

Lemma core_lookup (h h' : list Cell.t) more x n :
  core <$> h' = (core <$> h) ++ more → h !! x = Some n →
  ∃ n', h' !! x = Some n' ∧ core n' = core n.
Proof.
  intros H Hx.
  assert ((core <$> h') !! x = Some (core n)) as Hx'.
  { rewrite H. apply lookup_app_l_Some. by rewrite list_lookup_fmap, Hx. }
  rewrite list_lookup_fmap in Hx'.
  destruct (h' !! x) as [n'|]; [|done]. apply (inj Some) in Hx'. eauto.
Qed.

Lemma folder_ref_core (h h' : list Cell.t) more o :
  core <$> h' = (core <$> h) ++ more → folder_ref h o → folder_ref h' o.
Proof.
  intros H Ho p Hp. destruct (Ho p Hp) as (n & Hn & Hty).
  destruct (core_lookup h h' more p n H Hn) as (n' & Hn' & Heq).
  apply core_fields in Heq as (_&_&_&Heq&_). exists n'. split; [done|congruence].
Qed.

(** *** The children after an allocation *)

Lemma is_child_alloc (h : list Cell.t) new p c :
  Cell.children new = [] → is_child (h ++ [new]) p c ↔ is_child h p c.
Proof.
  intros Hnew. split; intros (n & Hp & Hc).
  - apply lookup_app_Some in Hp as [Hp|[_ Hp]]; [by exists n|].
    apply list_lookup_singleton_Some in Hp as [_ <-]. rewrite Hnew in Hc.
    by apply elem_of_nil in Hc.
  - exists n. split; [|done]. by apply lookup_app_l_Some.
Qed.

Lemma push_child_lookup (h : list Cell.t) parent child x :
  push_child parent child h !! x
  = if decide (x = parent)
    then (λ c, Cell.set_children (Cell.children c ++ [child]) c) <$> h !! x
    else h !! x.
Proof.
  unfold push_child. case_decide as Hx.
  - subst. by rewrite list_lookup_alter_eq.
  - by rewrite list_lookup_alter_ne.
Qed.

Lemma is_child_push (h : list Cell.t) parent child p c :
  is_Some (h !! parent) →
  is_child (push_child parent child h) p c ↔ is_child h p c ∨ (p = parent ∧ c = child).
Proof.
  intros [np Hnp]. unfold is_child. rewrite push_child_lookup.
  case_decide as Hp.
  - subst p. rewrite Hnp. simpl. split.
    + intros (n & [= <-] & Hc). destruct np; simpl in *.
      apply elem_of_app in Hc as [Hc|Hc%list_elem_of_singleton]; eauto.
    + intros [(n & [= <-] & Hc)|[_ ->]]; eexists; (split; [done|]);
        destruct np; simpl; apply elem_of_app; [by left|right; by apply list_elem_of_singleton].
  - split; [by left|]. by intros [?|[? _]].
Qed.

Lemma is_child_attach parentNode key new add_root b p c :
  Cell.children new = [] → folder_ref (heap b) parentNode →
  is_child (heap (attach parentNode key new add_root b)) p c
  ↔ is_child (heap b) p c ∨ (parentNode = Some p ∧ c = length (heap b)).
Proof.
  intros Hnew Hparent. unfold attach. destruct parentNode as [parent|]; simpl.
  - destruct (Hparent parent eq_refl) as (np & Hnp & _).
    rewrite is_child_push, is_child_alloc by (done || (exists np; by apply lookup_app_l_Some)).
    split; (intros [?|[? ?]]; [by left|right; split; congruence]).
  - rewrite is_child_alloc by done. split; [by left|]. by intros [?|[? _]].
Qed.

Lemma length_attach parentNode key new add_root b :
  length (heap (attach parentNode key new add_root b)) = S (length (heap b)).
Proof.
  rewrite <- (length_fmap core), core_attach, length_app, length_fmap. simpl. lia.
Qed.

Lemma lookup_attach_new parentNode key new add_root b :
  Cell.children new = [] → folder_ref (heap b) parentNode →
  heap (attach parentNode key new add_root b) !! length (heap b) = Some new.
Proof.
  intros Hnew Hparent. unfold attach. destruct parentNode as [parent|]; simpl.
  - destruct (Hparent parent eq_refl) as (np & Hnp%lookup_lt_Some & _).
    rewrite push_child_lookup. case_decide; [lia|]. by apply list_lookup_middle.
  - by apply list_lookup_middle.
Qed.

Lemma lookup_attach_old parentNode key new add_root b x n' :
  folder_ref (heap b) parentNode →
  heap (attach parentNode key new add_root b) !! x = Some n' →
  x < length (heap b) →
  ∃ n, heap b !! x = Some n ∧ core n' = core n
       ∧ (Cell.children n' = Cell.children n
          ∨ (parentNode = Some x ∧ Cell.type n = folder
             ∧ Cell.children n' = Cell.children n ++ [length (heap b)])).
Proof.
  intros Hparent Hx Hlt.
  destruct (lookup_lt_is_Some_2 (heap b) x Hlt) as [n Hn]. exists n. split; [done|].
  unfold attach in Hx. destruct parentNode as [parent|]; simpl in Hx.
  - rewrite push_child_lookup in Hx. rewrite lookup_app_l in Hx by done. rewrite Hn in Hx.
    case_decide as Hxp; simpl in Hx; injection Hx as <-.
    + subst x. destruct (Hparent parent eq_refl) as (np & Hnp & Hty).
      rewrite Hn in Hnp. injection Hnp as <-.
      split; [by destruct n|]. right. by destruct n.
    + auto.
  - rewrite lookup_app_l in Hx by done. rewrite Hn in Hx. injection Hx as <-. auto.
Qed.

Lemma forest_attach parentNode key new add_root b :
  Cell.children new = [] → folder_ref (heap b) parentNode → forest (heap b) →
  forest (heap (attach parentNode key new add_root b)).
Proof.
  intros Hnew Hparent Hf.
  assert (Hold : ∀ p c, is_child (heap b) p c → p < c < length (heap b))
    by apply (forest_order _ Hf).
  assert (Hvalid : ∀ p, parentNode = Some p → p < length (heap b)).
  { intros p Hp. destruct (Hparent p Hp) as (n & Hn%lookup_lt_Some & _). done. }
  split.
  - intros p c. rewrite is_child_attach, length_attach by done.
    intros [Hpc%Hold|[Hp%Hvalid ->]]; lia.
  - intros p p' c. rewrite !is_child_attach by done.
    intros [Hpc|[Hp ->]] [Hp'c|[Hp' Hc]].
    + by eapply (forest_parent _ Hf).
    + subst c. apply Hold in Hpc. lia.
    + apply Hold in Hp'c. lia.
    + congruence.
  - intros p n' Hp.
    destruct (decide (p < length (heap b))) as [Hlt|Hge].
    + destruct (lookup_attach_old _ _ _ _ _ _ _ Hparent Hp Hlt) as (n & Hn & _ & [->|(_ & _ & ->)]).
      * by eapply (forest_nodup _ Hf).
      * apply NoDup_app. split; [by eapply (forest_nodup _ Hf)|]. split; [|apply NoDup_singleton].
        intros c Hc ->%list_elem_of_singleton.
        assert (is_child (heap b) p (length (heap b))) as ?%Hold by (by exists n). lia.
    + apply lookup_lt_Some in Hp as Hp'. rewrite length_attach in Hp'.
      assert (p = length (heap b)) as -> by lia.
      rewrite lookup_attach_new in Hp by done. injection Hp as <-. rewrite Hnew. constructor.
  - intros p n' Hp Hty.
    destruct (decide (p < length (heap b))) as [Hlt|Hge].
    + destruct (lookup_attach_old _ _ _ _ _ _ _ Hparent Hp Hlt)
        as (n & Hn & Hcore & [->|(_ & Hfolder & _)]).
      * apply core_fields in Hcore as (_&_&_&Hcore&_).
        eapply (forest_leaf _ Hf); [done|congruence].
      * apply core_fields in Hcore as (_&_&_&Hcore&_). congruence.
    + apply lookup_lt_Some in Hp as Hp'. rewrite length_attach in Hp'.
      assert (p = length (heap b)) as -> by lia.
      rewrite lookup_attach_new in Hp by done. by injection Hp as <-.
Qed.

Lemma treeMap_attach parentNode key new add_root b :
  treeMap (attach parentNode key new add_root b) = <[key := length (heap b)]> (treeMap b).
Proof. unfold attach. by destruct parentNode. Qed.

Lemma rootNodes_attach parentNode key new add_root b :
  rootNodes (attach parentNode key new add_root b)
  = match parentNode with
    | Some _ => rootNodes b
    | None => if add_root then rootNodes b ++ [length (heap b)] else rootNodes b
    end.
Proof. unfold attach. by destruct parentNode. Qed.

Lemma build_inv_attach parentNode key new add_root b :
  build_inv b → folder_ref (heap b) parentNode →
  Cell.children new = [] →
  (Cell.type new = folder → Cell.size new = js_number 0 ∧ add_root = true) →
  (∀ currentPath, key = "folder-" +:+ currentPath → Cell.type new = folder) →
  build_inv (attach parentNode key new add_root b).
Proof.
  intros [Hf Hnd Hroots Hcover Hfresh Hmap] Hparent Hnew Hfolder Hkey.
  set (b' := attach parentNode key new add_root b).
  assert (Hcore : core <$> heap b' = (core <$> heap b) ++ [core new]) by apply core_attach.
  assert (Hrootlt : ∀ r, r ∈ rootNodes b → r < length (heap b)) by (intros; by apply Hroots).
  assert (Hnotroot : length (heap b) ∉ rootNodes b) by (intros ?%Hrootlt; lia).
  split.
  - by apply forest_attach.
  - subst b'. rewrite rootNodes_attach. destruct parentNode, add_root; try done.
    apply NoDup_app. split; [done|]. split; [|apply NoDup_singleton].
    by intros r Hr ->%list_elem_of_singleton.
  - intros r Hr. subst b'. rewrite length_attach. rewrite rootNodes_attach in Hr.
    assert (r ∈ rootNodes b ∨ (parentNode = None ∧ r = length (heap b))) as [Hold|[-> ->]].
    { destruct parentNode, add_root; auto.
      apply elem_of_app in Hr as [?|?%list_elem_of_singleton]; auto. }
    + destruct (Hroots r Hold) as [Hlt Hnone]. split; [lia|].
      intros p. rewrite is_child_attach by done. intros [?|[_ ->]]; [by eapply Hnone|lia].
    + split; [lia|]. intros p. rewrite is_child_attach by done.
      intros [Hc%(forest_order _ Hf)|[? _]]; [lia|done].
  - intros x n' Hx Hty. subst b'. rewrite rootNodes_attach.
    destruct (decide (x < length (heap b))) as [Hlt|Hge].
    + destruct (lookup_attach_old _ _ _ _ _ _ _ Hparent Hx Hlt) as (n & Hn & Heq & _).
      apply core_fields in Heq as (_&_&_&Heq&_).
      destruct (Hcover x n Hn) as [Hr|[p Hp]]; [congruence| |].
      * left. destruct parentNode, add_root; try done. apply elem_of_app. by left.
      * right. exists p. rewrite is_child_attach by done. by left.
    + apply lookup_lt_Some in Hx as Hx'. rewrite length_attach in Hx'.
      assert (x = length (heap b)) as -> by lia.
      rewrite lookup_attach_new in Hx by done. injection Hx as <-.
      destruct (Hfolder Hty) as [_ ->].
      destruct parentNode as [parent|].
      * right. exists parent. rewrite is_child_attach by done. by right.
      * left. apply elem_of_app. right. by apply list_elem_of_singleton.
  - intros x n' Hx Hty.
    destruct (decide (x < length (heap b))) as [Hlt|Hge].
    + destruct (lookup_attach_old _ _ _ _ _ _ _ Hparent Hx Hlt) as (n & Hn & Heq & _).
      apply core_fields in Heq as (_&_&_&Heq&->&_). eapply Hfresh; [done|congruence].
    + apply lookup_lt_Some in Hx as Hx'. subst b'. rewrite length_attach in Hx'.
      assert (x = length (heap b)) as -> by lia.
      rewrite lookup_attach_new in Hx by done. injection Hx as <-. by apply Hfolder.
  - intros currentPath r. subst b'. rewrite treeMap_attach.
    destruct (decide (key = "folder-" +:+ currentPath)) as [->|Hne].
    + rewrite lookup_insert_eq. intros [= <-] p [= <-].
      exists new. split; [by apply lookup_attach_new|by eapply Hkey].
    + rewrite lookup_insert_ne by done. intros Hr.
      eapply folder_ref_core; [apply core_attach|by eapply Hmap].
Qed.

Lemma nm_cells_core (h : list Cell.t) : nm_cells h = omap nm_entry (core <$> h).
Proof.
  unfold nm_cells. induction h as [|c h IH]; [done|].
  csimpl. rewrite <- IH. by destruct c as [? ? ? [] ? ? ? ? ?].
Qed.

Lemma nm_cells_attach parentNode key new add_root b :
  nm_cells (heap (attach parentNode key new add_root b))
  = nm_cells (heap b) ++ from_option (λ e, [e]) [] (nm_entry new).
Proof.
  rewrite (nm_cells_core (heap (attach _ _ _ _ _))), (nm_cells_core (heap b)).
  rewrite core_attach, omap_app. f_equal.
Qed.

Lemma folder_prefix_ne a b : "folder-" +:+ a ≠ "node_modules-" +:+ b.
Proof. unfold String.append. discriminate. Qed.

Section BuildInv.
Context (localeCompare : string → string → Z).

Lemma folder_loop_inv projectPathParts rest i currentPath parentNode b :
  build_inv b → folder_ref (heap b) parentNode →
  let r := folder_loop projectPathParts i rest currentPath parentNode b in
  build_inv r.2 ∧ folder_ref (heap r.2) r.1 ∧ nm_cells (heap r.2) = nm_cells (heap b).
Proof.
  revert i currentPath parentNode b.
  induction rest as [|part rest IH]; intros i currentPath parentNode b Hinv Hparent.
  { simpl. auto. }
  cbn [folder_loop]. case_bool_decide as Hpart; [by apply IH|].
  set (currentPath' := if bool_decide (currentPath = "") then part
                       else currentPath +:+ "/" +:+ part).
  set (nodeId := "folder-" +:+ currentPath').
  destruct (treeMap b !! nodeId) as [r|] eqn:Hlookup.
  - (* the folder is known *)
    rewrite Hlookup. apply IH; [done|]. by eapply (inv_map b Hinv).
  - (* a new folder *)
    set (newNode := Cell.mk nodeId part (join "/" (take (S i) projectPathParts)) folder []
                      (js_number 0) (bool_decide (i < 2)) false i).
    change (match parentNode with
            | Some parent => _
            | None => _
            end) with (attach parentNode nodeId newNode true b).
    assert (build_inv (attach parentNode nodeId newNode true b)) as Hinv'.
    { apply build_inv_attach; done. }
    rewrite treeMap_attach, lookup_insert_eq.
    destruct (IH (S i) currentPath' (Some (length (heap b)))
                (attach parentNode nodeId newNode true b)) as (H1 & H2 & H3).
    + done.
    + intros p [= <-]. exists newNode. split; [by apply lookup_attach_new|done].
    + split; [done|]. split; [done|]. rewrite H3, nm_cells_attach. simpl. by rewrite app_nil_r.
Qed.

Lemma add_item_inv b item :
  build_inv b →
  build_inv (add_item b item)
  ∧ nm_cells (heap (add_item b item)) = nm_cells (heap b) ++ [item_entry item].
Proof.
  intros Hinv. unfold add_item.
  set (parts := split_path (ScanItem.project_path item)).
  pose proof (folder_loop_inv parts parts 0 "" None b Hinv) as Hloop.
  destruct (folder_loop parts 0 parts "" None b) as [parentNode b1].
  destruct Hloop as (Hinv1 & Hparent & Hcells); [by intros p|]. simpl in *.
  set (nodeModulesId := "node_modules-" +:+ ScanItem.node_modules_path item).
  set (nodeModulesNode := Cell.mk nodeModulesId "node_modules" (ScanItem.node_modules_path item)
                            node_modules [] (ScanItem.size item) false false (length parts)).
  change (match parentNode with
          | Some parent => _
          | None => _
          end) with (attach parentNode nodeModulesId nodeModulesNode false b1).
  split.
  - apply build_inv_attach; [done..| |]; [done|].
    intros currentPath Heq. symmetry in Heq. by apply folder_prefix_ne in Heq.
  - by rewrite nm_cells_attach, Hcells.
Qed.

Lemma is_child_empty p c : ¬ is_child [] p c.
Proof. by intros (n & Hn & _). Qed.

Lemma build_inv_empty : build_inv (mkBuildState [] ∅ []).
Proof.
  split; simpl.
  - split; [intros p c H|intros p p' c H|done..]; by apply is_child_empty in H.
  - constructor.
  - by intros r ?%elem_of_nil.
  - done.
  - done.
  - by intros currentPath r.
Qed.

Lemma foldl_add_item_inv items b :
  build_inv b →
  build_inv (foldl add_item b items)
  ∧ nm_cells (heap (foldl add_item b items)) = nm_cells (heap b) ++ (item_entry <$> items).
Proof.
  revert b. induction items as [|item items IH]; intros b Hinv.
  { simpl. by rewrite app_nil_r. }
  destruct (add_item_inv b item Hinv) as [Hinv1 Hcells1].
  destruct (IH (add_item b item) Hinv1) as [Hinv2 Hcells2].
  split; [done|]. cbn [foldl]. rewrite Hcells2, Hcells1, <- app_assoc. done.
Qed.

Lemma build_nodes_inv results :
  build_inv (build_nodes localeCompare results)
  ∧ nm_cells (heap (build_nodes localeCompare results))
    = item_entry <$> sortResults localeCompare results.
Proof. apply (foldl_add_item_inv _ _ build_inv_empty). Qed.

Lemma sort_insert_perm item sorted :
  sort_insert localeCompare item sorted ≡ₚ item :: sorted.
Proof.
  induction sorted as [|b rest IH]; [done|].
  simpl. case_match; [done|]. rewrite IH. apply Permutation_swap.
Qed.

Lemma sortResults_perm results : sortResults localeCompare results ≡ₚ results.
Proof.
  unfold sortResults. induction results as [|item results IH]; [done|].
  simpl. by rewrite sort_insert_perm, IH.
Qed.

End BuildInv.

Lemma covered b x n :
  build_inv b → heap b !! x = Some n → Cell.type n = folder →
  ∃ r, r ∈ rootNodes b ∧ descends (heap b) r x.
Proof.
  intros Hinv. revert n. induction (lt_wf x) as [x _ IH]. intros n Hx Hty.
  destruct (inv_cover b Hinv x n Hx Hty) as [Hroot|[p Hp]].
  { exists x. split; [done|apply rtc_refl]. }
  pose proof (forest_order _ (inv_forest b Hinv) p x Hp) as Hlt.
  destruct Hp as (np & Hnp & Hc).
  assert (Cell.type np = folder) as Hfolder.
  { destruct (Cell.type np) eqn:Hnm; [done|].
    rewrite (forest_leaf _ (inv_forest b Hinv) p np Hnp Hnm) in Hc. by apply elem_of_nil in Hc. }
  destruct (IH p (proj1 Hlt) np Hnp Hfolder) as (r & Hr & Hrp).
  exists r. split; [done|]. eapply rtc_r; [done|]. by exists np.
Qed.

Lemma omap_nm_entry_ext (h h' : list Cell.t) :
  Forall2 (λ c c', nm_entry c = nm_entry c') h h' → nm_cells h = nm_cells h'.
Proof.
  unfold nm_cells. induction 1 as [|c c' h h' Hc _ IH]; [done|].
  csimpl. by rewrite Hc, IH.
Qed.

Section BuildSpec.
Context (localeCompare : string → string → Z).

(** What [buildTreeFromResults] leaves on the heap. *)
Lemma buildTree_heap_spec results :
  ∃ roots h,
    buildTree_heap localeCompare results = Some (roots, h)
    ∧ forest h
    ∧ (∀ r, r ∈ roots → r < length h)
    ∧ (∀ x, summed h x)
    ∧ (∀ x n, h !! x = Some n → Cell.type n = folder → Cell.children n = [] →
              Cell.size n = js_number 0)
    ∧ nm_cells h = item_entry <$> sortResults localeCompare results.
Proof.
  unfold buildTree_heap.
  destruct (build_nodes_inv localeCompare results) as [Hinv Hcells].
  set (b := build_nodes localeCompare results) in *.
  destruct (calculateFolderSizes_spec (S (length (heap b))) (rootNodes b) (heap b))
    as (h & Hcalc & Hshape & Hsum & Hout & Hkeep).
  - apply Hinv.
  - apply roots_independent; [apply Hinv|]. intros r p Hr. by apply (inv_roots b Hinv).
  - apply Hinv.
  - lia.
  - intros r Hr%(inv_roots b Hinv). lia.
  - exists (rootNodes b), h. rewrite Hcalc. split; [done|].
    assert (Hback : shape <$> heap b = shape <$> h) by done.
    split; [by eapply same_shape_forest, Hinv|].
    split; [|split; [|split]].
    + intros r Hr%(inv_roots b Hinv). rewrite (same_shape_length _ _ Hshape). lia.
    + intros x n Hn Hty Hne.
      destruct (same_shape_lookup h (heap b) x n Hback Hn) as (n0 & Hn0 & Heq).
      apply shape_fields in Heq as (_&_&_&Heq&_).
      destruct (covered b x n0 Hinv Hn0) as (r & Hr & Hrx); [congruence|].
      by eapply Hsum.
    + intros x n Hn Hty Hnil.
      destruct (same_shape_lookup h (heap b) x n Hback Hn) as (n0 & Hn0 & Heq).
      apply shape_fields in Heq as (_&_&_&Hty0&Hch0&_).
      rewrite (Hkeep x n0 Hn0) in Hn by (right; congruence). injection Hn as <-.
      by eapply (inv_fresh b Hinv).
    + rewrite <- Hcells. apply omap_nm_entry_ext. apply Forall2_same_length_lookup.
      split; [by apply same_shape_length|].
      intros x n n0 Hn Hn0.
      destruct (decide (Cell.type n0 = node_modules)) as [Hnm|Hfolder].
      * rewrite (Hkeep x n0 Hn0) in Hn by (by left). by injection Hn as <-.
      * destruct (same_shape_lookup _ _ x n0 Hshape Hn0) as (n' & Hn' & Heq).
        rewrite Hn in Hn'. injection Hn' as <-.
        apply shape_fields in Heq as (_&_&_&Heq&_).
        unfold nm_entry. rewrite Heq. by destruct (Cell.type n0).
Qed.

End BuildSpec.

(** *** Reading the tree off the heap *)

Lemma reify_total fuel (h : list Cell.t) r :
  forest h → r < length h → length h - r ≤ fuel → is_Some (reify fuel h r).
Proof.
  intros Hf. revert r. induction fuel as [|fuel IH]; intros r Hr Hfuel; [lia|].
  destruct (lookup_lt_is_Some_2 h r Hr) as [c Hc].
  cbn [reify]. rewrite Hc. simpl.
  assert (is_Some (mapM (reify fuel h) (Cell.children c))) as [children Hchildren].
  { apply mapM_is_Some. apply Forall_forall. intros x Hx.
    assert (is_child h r x) as Hrx%(forest_order h Hf) by (by exists c).
    apply IH; lia. }
  rewrite Hchildren. simpl. eauto.
Qed.

Lemma reify_reads fuel (h : list Cell.t) r t :
  reify fuel h r = Some t →
  ∀ node, node ∈ subnodes t → ∃ x c, h !! x = Some c ∧ reads h c node.
Proof.
  revert r t. induction fuel as [|fuel IH]; intros r t Hreify; [done|].
  cbn [reify] in Hreify.
  destruct (h !! r) as [c|] eqn:Hc; [|done]. simpl in Hreify.
  destruct (mapM (reify fuel h) (Cell.children c)) as [children|] eqn:Hchildren; [|done].
  simpl in Hreify. injection Hreify as <-.
  apply mapM_Some in Hchildren.
  intros node [->|Hnode]%elem_of_cons.
  - exists r, c. split; [done|]. repeat (split; [done|]). simpl.
    eapply Forall2_impl; [done|]. intros x child Hx. simpl in Hx.
    destruct fuel as [|fuel']; [done|]. cbn [reify] in Hx.
    destruct (h !! x) as [cc|]; [|done]. simpl in Hx.
    destruct (mapM (reify fuel' h) (Cell.children cc)); [|done].
    simpl in Hx. injection Hx as <-. eauto.
  - simpl in Hnode. apply list_elem_of_In, in_flat_map in Hnode as (child & Hchild & Hnode).
    apply list_elem_of_In in Hchild, Hnode.
    apply list_elem_of_lookup in Hchild as [i Hi].
    destruct (Forall2_lookup_r _ _ _ _ _ Hchildren Hi) as (x & _ & Hx).
    by eapply IH.
Qed.

Lemma sum_sizes_reads (h : list Cell.t) refs children :
  Forall2 (λ r child, ∃ cc, h !! r = Some cc ∧ TreeNode.size child = Cell.size cc)
    refs children →
  sum_sizes h refs = tree_sum children.
Proof.
  unfold sum_sizes, tree_sum. intros H. generalize 0%N.
  induction H as [|r child refs children (cc & Hcc & Hsize) _ IH]; intros total; [done|].
  cbn [foldl]. unfold size_at at 2. rewrite Hcc, Hsize. apply IH.
Qed.

Lemma nm_cell_item localeCompare results (h : list Cell.t) x c :
  nm_cells h = item_entry <$> sortResults localeCompare results →
  h !! x = Some c → Cell.type c = node_modules →
  ∃ item, item ∈ results ∧ Cell.path c = ScanItem.node_modules_path item
          ∧ Cell.size c = ScanItem.size item.
Proof.
  intros Hcells Hx Hty.
  assert ((Cell.path c, Cell.size c) ∈ nm_cells h) as Hin.
  { apply list_elem_of_omap. exists c. split; [by eapply list_elem_of_lookup_2|].
    unfold nm_entry. by rewrite Hty. }
  rewrite Hcells in Hin. apply list_elem_of_fmap in Hin as (item & Heq & Hitem).
  exists item. rewrite <- (sortResults_perm localeCompare results). 
  unfold item_entry in Heq. by injection Heq as -> ->.
Qed.

(** The function returns, and every node of the returned array is an
    object of the final heap. *)
Lemma buildTreeFromResults_reads (localeCompare : string → string → Z)
    (results : list ScanItem.t) :
  ∃ roots h tree,
    buildTree_heap localeCompare results = Some (roots, h)
    ∧ buildTreeFromResults localeCompare results = Some tree
    ∧ ∀ node, node ∈ flat_map subnodes tree → ∃ x c, h !! x = Some c ∧ reads h c node.
Proof.
  destruct (buildTree_heap_spec localeCompare results)
    as (roots & h & Hheap & Hf & Hroots & _).
  exists roots, h. unfold buildTreeFromResults. rewrite Hheap. simpl.
  assert (is_Some (mapM (reify (length h) h) roots)) as [tree Htree].
  { apply mapM_is_Some, Forall_forall. intros r Hr%Hroots. apply reify_total; [done..|lia]. }
  exists tree. split; [done|]. split; [done|].
  apply mapM_Some in Htree.
  intros node (t & Ht & Hnode)%list_elem_of_In%in_flat_map.
  apply list_elem_of_In in Ht, Hnode.
  apply list_elem_of_lookup in Ht as [i Hi].
  destruct (Forall2_lookup_r _ _ _ _ _ Htree Hi) as (r & _ & Hr).
  by eapply reify_reads.
Qed.

(** C10: in the array that [buildTreeFromResults] returns, a folder with
    children has as size the sum of its children's sizes, an absent size
    counting as 0; a folder without children has size 0; a [node_modules]
    node is a leaf with the path and the size of one of the scan items. *)
Theorem buildTreeFromResults_sizes (localeCompare : string → string → Z)
    (results : list ScanItem.t) :
  ∃ tree,
    buildTreeFromResults localeCompare results = Some tree
    ∧ ∀ node, node ∈ flat_map subnodes tree →
        (TreeNode.type node = folder → TreeNode.children node ≠ [] →
         TreeNode.size node = js_number (tree_sum (TreeNode.children node)))
        ∧ (TreeNode.type node = folder → TreeNode.children node = [] →
           TreeNode.size node = js_number 0)
        ∧ (TreeNode.type node = node_modules →
           TreeNode.children node = []
           ∧ ∃ item, item ∈ results
                     ∧ TreeNode.path node = ScanItem.node_modules_path item
                     ∧ TreeNode.size node = ScanItem.size item).
Proof.
  destruct (buildTreeFromResults_reads localeCompare results)
    as (roots & h & tree & Hheap & Htree & Hreads).
  destruct (buildTree_heap_spec localeCompare results)
    as (roots' & h' & Hheap' & Hf & _ & Hsum & Hempty & Hcells).
  rewrite Hheap in Hheap'. injection Hheap' as <- <-.
  exists tree. split; [done|]. intros node Hnode.
  destruct (Hreads node Hnode)
    as (x & c & Hx & _ & _ & Hpath & Hty & Hsize & _ & _ & _ & Hchildren).
  rewrite Hty, Hsize, Hpath.
  split; [|split].
  - intros Hfolder Hne. rewrite <- (sum_sizes_reads h _ _ Hchildren).
    apply (Hsum x c Hx Hfolder). intros Hnil. rewrite Hnil in Hchildren.
    by apply Forall2_nil_inv_l in Hchildren.
  - intros Hfolder Hnil. apply (Hempty x c Hx Hfolder). rewrite Hnil in Hchildren.
    by apply Forall2_nil_inv_r in Hchildren.
  - intros Hnm. split.
    + rewrite (forest_leaf h Hf x c Hx Hnm) in Hchildren.
      by apply Forall2_nil_inv_l in Hchildren.
    + by eapply nm_cell_item.
Qed.

(** Scenario A of the specification next to a second project and a
    project without sizes: the folders above [/r/app] add up to 1000. *)
Example buildTreeFromResults_scenario :
  (λ tree, (λ node, (TreeNode.path node, TreeNode.size node)) <$> flat_map subnodes tree)
    <$> buildTreeFromResults byte_order sized_results
  = Some [ ("/r", js_number 1000)
         ; ("/r/app", js_number 1000)
         ; ("/r/app/node_modules", js_number 300)
         ; ("/r/app/packages", js_number 700)
         ; ("/r/app/packages/x", js_number 700)
         ; ("/r/app/packages/x/node_modules", js_number 700)
         ; ("/r/lib", js_number 0)
         ; ("/r/lib/node_modules", js_null) ].
Proof. by vm_compute. Qed.

(** ** Trees *)

Lemma TreeNode_children_ind (P : TreeNode.t → Prop) :
  (∀ node, Forall P (TreeNode.children node) → P node) → ∀ node, P node.
Proof.
  intros H. fix IH 1. intros node. apply H.
  destruct node as [? ? ? ? children ? ? ? ?]. simpl.
  induction children as [|child children IHchildren]; constructor; [apply IH|done].
Qed.

Lemma Set_add_elem x s p : p ∈ Set_add x s ↔ p ∈ s ∨ p = x.
Proof.
  unfold Set_add. case_bool_decide as Hx.
  - split; [by left|]. by intros [?| ->].
  - rewrite elem_of_app, list_elem_of_singleton. done.
Qed.

Lemma foldl_collect_sound children acc p :
  Forall (λ child, ∀ acc, p ∈ collect_node child acc →
             p ∈ acc ∨ ∃ n, n ∈ subnodes child ∧ selected_node_modules p n)
    children →
  p ∈ foldl (λ acc child, collect_node child acc) acc children →
  p ∈ acc ∨ ∃ n, n ∈ flat_map subnodes children ∧ selected_node_modules p n.
Proof.
  intros H. revert acc. induction H as [|child children Hchild _ IH]; intros acc Hp; [by left|].
  cbn [foldl] in Hp. apply IH in Hp as [Hp|(n & Hn & Hsel)].
  - apply Hchild in Hp as [Hp|(n & Hn & Hsel)]; [by left|].
    right. exists n. split; [|done]. simpl. apply elem_of_app. by left.
  - right. exists n. split; [|done]. simpl. apply elem_of_app. by right.
Qed.

Lemma collect_node_sound node acc p :
  p ∈ collect_node node acc →
  p ∈ acc ∨ ∃ n, n ∈ subnodes node ∧ selected_node_modules p n.
Proof.
  revert acc. induction node as [node IH] using TreeNode_children_ind. intros acc Hp.
  destruct node as [id name path type children size isExpanded isSelected level].
  cbn [collect_node] in Hp. simpl in *.
  apply (foldl_collect_sound _ _ _ IH) in Hp as [Hp|(n & Hn & Hsel)].
  - destruct (isSelected && bool_decide (type = node_modules)) eqn:Hguard; [|by left].
    apply Set_add_elem in Hp as [Hp| ->]; [by left|].
    apply andb_true_iff in Hguard as [-> Hty%bool_decide_eq_true].
    right. eexists. split; [apply list_elem_of_here|]. done.
  - right. exists n. split; [|done]. by apply list_elem_of_further.
Qed.

Lemma updateSelectedItems_sound nodes p :
  p ∈ updateSelectedItems nodes →
  ∃ n, n ∈ flat_map subnodes nodes ∧ selected_node_modules p n.
Proof.
  unfold updateSelectedItems, collectSelectedPaths. intros Hp.
  apply foldl_collect_sound in Hp as [Hp%elem_of_nil|Hp]; [done|done|].
  apply Forall_forall. intros child _ acc. apply collect_node_sound.
Qed.

(** The pending overwrite of [toggleSelection_node] is the copy that the
    source makes before it calls itself on a child. *)
Lemma toggleSelection_node_override nodeId isSelected flag child :
  toggleSelection_node nodeId isSelected (Some flag) child
  = toggleSelection_node nodeId isSelected None (TreeNode.set_isSelected flag child).
Proof.
  destruct child as [id name path type children size isExpanded isSelected' level].
  cbn [toggleSelection_node]. simpl.
  case_bool_decide; destruct type, children; reflexivity.
Qed.

(** *** The updates keep every node's type and path *)

Lemma kinds_fmap (f : TreeNode.t → TreeNode.t) children :
  Forall (λ child, kind <$> subnodes (f child) = kind <$> subnodes child) children →
  kind <$> flat_map subnodes (f <$> children) = kind <$> flat_map subnodes children.
Proof.
  induction 1 as [|child children Hchild _ IH]; [done|].
  cbn [fmap list_fmap flat_map]. rewrite !fmap_app. by rewrite Hchild, IH.
Qed.

Lemma kinds_subnodes node :
  kind <$> subnodes node
  = kind node :: (kind <$> flat_map subnodes (TreeNode.children node)).
Proof. by destruct node. Qed.



Lemma selectAll_node_kinds node :
  kind <$> subnodes (selectAll_node node) = kind <$> subnodes node.
Proof.
  induction node as [node IH] using TreeNode_children_ind.
  destruct node as [id name path type children size isExpanded isSelected level].
  cbn [selectAll_node]. simpl in *.
  destruct type; [|done]. destruct children as [|child children]; [done|].
  rewrite !kinds_subnodes. cbn. f_equal. by apply (kinds_fmap _ (child :: children)).
Qed.


Lemma kinds_update (f : TreeNode.t → TreeNode.t) nodes :
  (∀ node, kind <$> subnodes (f node) = kind <$> subnodes node) →
  kinds (f <$> nodes) = kinds nodes.
Proof. intros H. apply kinds_fmap, Forall_forall. auto. Qed.


Lemma kinds_elem nodes p :
  (node_modules, p) ∈ kinds nodes
  ↔ ∃ n, n ∈ flat_map subnodes nodes
         ∧ TreeNode.type n = node_modules ∧ TreeNode.path n = p.
Proof.
  unfold kinds. rewrite list_elem_of_fmap. unfold kind. split.
  - intros (n & [= Hty Hp] & Hn). eauto.
  - intros (n & Hn & Hty & Hp). exists n. by rewrite Hty, Hp.
Qed.




Lemma tree_node_modules_item localeCompare results tree p :
  buildTreeFromResults localeCompare results = Some tree →
  (node_modules, p) ∈ kinds tree →
  ∃ item, item ∈ results ∧ ScanItem.node_modules_path item = p.
Proof.
  intros Htree (n & Hn & Hty & Hp)%kinds_elem.
  destruct (buildTreeFromResults_reads localeCompare results)
    as (roots & h & tree' & Hheap & Htree' & Hreads).
  rewrite Htree in Htree'. injection Htree' as <-.
  destruct (buildTree_heap_spec localeCompare results)
    as (roots' & h' & Hheap' & _ & _ & _ & _ & Hcells).
  rewrite Hheap in Hheap'. injection Hheap' as <- <-.
  destruct (Hreads n Hn) as (x & c & Hx & _ & _ & Hpath & Hty' & _).
  destruct (nm_cell_item localeCompare results h x c Hcells Hx) as (item & Hitem & Hc & _);
    [congruence|].
  exists item. split; [done|congruence].
Qed.

(** ** truncatePath *)

Lemma substring_prefix (s : list N) finish :
  (finish ≤ Z.of_nat (length s))%Z → substring s 0 finish = take (Z.to_nat finish) s.
Proof.
  intros H. unfold substring.
  replace (Z.min (Z.max 0 0) (Z.of_nat (length s))) with 0%Z by lia.
  replace (Z.min 0 (Z.min (Z.max finish 0) (Z.of_nat (length s)))) with 0%Z by lia.
  simpl drop. f_equal. lia.
Qed.

Lemma substring_suffix (s : list N) start :
  (0 ≤ start)%Z →
  substring s start (Z.of_nat (length s)) = drop (Z.to_nat start) s.
Proof.
  intros H. unfold substring.
  set (len := Z.of_nat (length s)).
  replace (Z.min (Z.max len 0) len) with len by lia.
  destruct (decide (start ≤ len)%Z) as [Hle|Hgt].
  - replace (Z.min (Z.max start 0) len) with start by lia.
    replace (Z.min start len) with start by lia.
    apply take_ge. rewrite length_drop. lia.
  - replace (Z.min (Z.max start 0) len) with len by lia.
    replace (Z.min len len) with len by lia.
    replace (Z.max len len - len)%Z with 0%Z by lia.
    rewrite !drop_ge by lia. done.
Qed.

(** X1: A path that fits is returned as it is; a longer one keeps its first
    and its last [maxLength / 2 - 10] code units around three dots, and
    for [maxLength] of 3 or more the result fits. *)
Theorem truncatePath_fits (path : list N) (maxLength : Z) :
  (3 ≤ maxLength)%Z →
  let k := Z.to_nat (maxLength / 2 - 10) in
  (Z.of_nat (length (truncatePath path maxLength)) ≤ maxLength)%Z
  ∧ truncatePath path maxLength
    = if (Z.of_nat (length path) <=? maxLength)%Z then path
      else take k path ++ code_units "..." ++ drop (length path - k) path.
Proof.
  intros Hmax k. subst k. unfold truncatePath.
  destruct (Z.of_nat (length path) <=? maxLength)%Z eqn:Hfit.
  { apply Z.leb_le in Hfit. done. }
  apply Z.leb_gt in Hfit.
  assert (maxLength / 2 ≤ maxLength)%Z as Hhalf by (apply Z.div_le_upper_bound; lia).
  assert (2 * (maxLength / 2) ≤ maxLength)%Z as Htwice by (apply Z.mul_div_le; lia).
  rewrite substring_prefix by lia.
  rewrite substring_suffix by lia.
  assert (drop (Z.to_nat (Z.of_nat (length path) - maxLength / 2 + 10)) path
          = drop (length path - Z.to_nat (maxLength / 2 - 10)) path) as ->.
  { destruct (decide (10 ≤ maxLength / 2)%Z); [f_equal; lia|].
    rewrite !drop_ge by lia. done. }
  split; [|done].
  rewrite !length_app, length_take, length_drop. simpl length. lia.
Qed.

Lemma truncatePath_fits_witness :
  let path := code_units "/home/me/projects/clients/acme/storefront/packages/ui/node_modules" in
  (Z.of_nat (length (truncatePath path 60)) ≤ 60)%Z
  ∧ truncatePath path 60
    = code_units "/home/me/projects/cl...ages/ui/node_modules".
Proof.
  pose proof (truncatePath_fits
    (code_units "/home/me/projects/clients/acme/storefront/packages/ui/node_modules") 60
    ltac:(lia)) as [H1 H2].
  split; [exact H1|]. rewrite H2. reflexivity.
Defined.

(** ** The duration badge and the progress events *)

Lemma js_integer_nonneg n : (0 ≤ n)%Z → js_integer n = decimal n.
Proof. intros H. unfold js_integer. by rewrite (proj2 (Z.ltb_ge n 0)). Qed.

(** X2: A duration that is not negative (and below 2^53 milliseconds,
    where the source's doubles divide as the integers do) is shown in whole
    seconds below one minute, and from there on in minutes of at least 1
    and seconds below 60 that add up to the whole seconds. *)
Theorem format_duration_parts (duration : Z) :
  (0 ≤ duration < 2 ^ 53)%Z →
  let seconds := (duration / 1000)%Z in
  if (duration <? 60000)%Z
  then format_duration duration = decimal seconds +:+ "s"
  else ∃ minutes remaining,
         format_duration duration
           = decimal minutes +:+ "m " +:+ decimal remaining +:+ "s"
         ∧ (1 ≤ minutes)%Z ∧ (0 ≤ remaining < 60)%Z
         ∧ (minutes * 60 + remaining = seconds)%Z.
Proof.
  intros [Hd _] seconds. unfold format_duration. fold seconds.
  assert (0 ≤ seconds)%Z as Hs by (apply Z.div_pos; lia).
  destruct (duration <? 60000)%Z eqn:Hshort.
  - apply Z.ltb_lt in Hshort.
    assert (seconds < 60)%Z as Hlt by (apply Z.div_lt_upper_bound; lia).
    rewrite (proj2 (Z.ltb_ge 0 (seconds / 60))) by (rewrite Z.div_small; lia).
    by rewrite js_integer_nonneg.
  - apply Z.ltb_ge in Hshort.
    assert (60 ≤ seconds)%Z as Hge by (apply Z.div_le_lower_bound; lia).
    assert (1 ≤ seconds / 60)%Z as Hm by (apply Z.div_le_lower_bound; lia).
    rewrite (proj2 (Z.ltb_lt 0 (seconds / 60))) by lia.
    rewrite Z.rem_mod_nonneg by lia.
    pose proof (Z.mod_pos_bound seconds 60 ltac:(lia)) as Hr.
    exists (seconds / 60)%Z, (seconds mod 60)%Z.
    rewrite !js_integer_nonneg by lia.
    split; [done|]. split; [done|]. split; [done|].
    pose proof (Z.div_mod seconds 60 ltac:(lia)). lia.
Qed.

Lemma format_duration_parts_witness : format_duration 59999 = "59s".
Proof. exact (format_duration_parts 59999 ltac:(lia)). Defined.

(** X3: A completion event empties the duration badge as soon as the effect
    on [isScanning] runs, while [scanStartTime] is still set. *)
Theorem completion_clears_duration (progress : ScanProgress.t) (st : AppState) :
  ScanProgress.is_complete progress = true →
  let st' := (duration_effect (on_scan_progress progress st).1).1 in
  scanDuration st' = "" ∧ scanStartTime st' = scanStartTime st.
Proof.
  intros Hc. unfold on_scan_progress. rewrite Hc. by destruct st.
Qed.

(** X4: A series of progress events leaves the scanning state exactly when
    one of them carries the completion flag, and shows the last
    snapshot. *)
Theorem run_progress_spec (events : list ScanProgress.t) (st : AppState) :
  isScanning (run_progress events st)
  = isScanning st && forallb (λ p, negb (ScanProgress.is_complete p)) events
  ∧ scanProgress (run_progress events st) = default (scanProgress st) (last events)
  ∧ scanResults (run_progress events st) = scanResults st
  ∧ treeData (run_progress events st) = treeData st
  ∧ selectedItems (run_progress events st) = selectedItems st.
Proof.
  unfold run_progress. revert st. induction events as [|p events IH]; intros st.
  { simpl. by rewrite andb_true_r. }
  cbn [foldl forallb]. destruct (IH (on_scan_progress p st).1) as (-> & -> & -> & -> & ->).
  unfold on_scan_progress.
  destruct (ScanProgress.is_complete p); simpl;
    (split; [by rewrite ?andb_false_r|]);
    (split; [rewrite last_cons; by destruct (last events)|]);
    done.
Qed.

Lemma completion_clears_duration_witness :
  let st := with_scope scope_folder "/a" "" [] true in
  let st' := (duration_effect
                (on_scan_progress (ScanProgress.mk "/a/x" 40 40 3 1 true) st).1).1 in
  scanDuration st' = "" ∧ scanStartTime st' = scanStartTime st.
Proof.
  exact (completion_clears_duration (ScanProgress.mk "/a/x" 40 40 3 1 true)
           (with_scope scope_folder "/a" "" [] true) eq_refl).
Defined.

(** ** formatFileSize in closed form *)

Lemma Qle_bool_proper x y z : (y == z)%Q → Qle_bool x y = Qle_bool x z.
Proof.
  intros H. destruct (Qle_bool x z) eqn:Hz.
  - apply Qle_bool_iff. rewrite H. by apply Qle_bool_iff.
  - destruct (Qle_bool x y) eqn:Hy; [|done].
    apply Qle_bool_iff in Hy. rewrite H in Hy. apply Qle_bool_iff in Hy. congruence.
Qed.

Lemma Qle_div_Z a b c :
  (0 < c)%Z → (inject_Z a <= inject_Z b / inject_Z c)%Q ↔ (a * c ≤ b)%Z.
Proof.
  intros Hc. assert (0 < inject_Z c)%Q as Hc' by (by rewrite <- (Zlt_Qlt 0)).
  split; intros H.
  - apply (Qmult_le_compat_r _ _ (inject_Z c)) in H; [|by apply Qlt_le_weak].
    rewrite Zle_Qle, inject_Z_mult. eapply Qle_trans; [exact H|].
    apply Qle_lteq. right. field. intros Hz. rewrite Hz in Hc'. by apply Qlt_irrefl in Hc'.
  - apply Qle_shift_div_l; [done|]. by rewrite <- inject_Z_mult, <- Zle_Qle.
Qed.

Lemma scale_loop_steps (b : N) (n k unitIndex : nat) (size : Q) fuel :
  unitIndex + n = k → k ≤ 4 → n ≤ fuel →
  (size == inject_Z (Z.of_N b) / inject_Z (1024 ^ Z.of_nat unitIndex))%Q →
  (1024 ^ Z.of_nat k ≤ Z.of_N b)%Z →
  (k < 4 → (Z.of_N b < 1024 ^ Z.of_nat (S k))%Z) →
  ∃ size', scale_loop fuel size unitIndex = (size', k)
           ∧ (size' == inject_Z (Z.of_N b) / inject_Z (1024 ^ Z.of_nat k))%Q.
Proof.
  revert unitIndex size fuel.
  induction n as [|n IH]; intros unitIndex size fuel Hk Hk4 Hfuel Hsize Hlo Hhi.
  - (* the loop stops here *)
    assert (unitIndex = k) as -> by lia.
    exists size. split; [|done].
    destruct fuel as [|fuel]; [done|]. cbn [scale_loop].
    destruct (decide (k < 4)) as [Hlt|Hge].
    + assert (Qle_bool 1024 size = false) as ->; [|done].
      rewrite (Qle_bool_proper _ _ _ Hsize).
      destruct (Qle_bool 1024 _) eqn:Hle; [|done]. exfalso.
      apply Qle_bool_iff in Hle.
      assert (0 < 1024 ^ Z.of_nat k)%Z as Hpos by (apply Z.pow_pos_nonneg; lia).
      apply (proj1 (Qle_div_Z 1024 (Z.of_N b) (1024 ^ Z.of_nat k) Hpos)) in Hle.
      specialize (Hhi Hlt). rewrite Nat2Z.inj_succ, Z.pow_succ_r in Hhi by lia. lia.
    + assert ((k <? length units - 1) = false) as ->; [|by rewrite andb_false_r].
      apply Nat.ltb_ge. simpl. lia.
  - (* one more division *)
    destruct fuel as [|fuel]; [lia|]. cbn [scale_loop].
    assert (0 < 1024 ^ Z.of_nat unitIndex)%Z as Hpos by (apply Z.pow_pos_nonneg; lia).
    assert (Qle_bool 1024 size = true) as ->.
    { rewrite (Qle_bool_proper _ _ _ Hsize). apply Qle_bool_iff.
      apply (proj2 (Qle_div_Z 1024 (Z.of_N b) (1024 ^ Z.of_nat unitIndex) Hpos)).
      etrans; [|exact Hlo]. rewrite <- Z.pow_succ_r, <- Nat2Z.inj_succ by lia.
      apply Z.pow_le_mono_r; lia. }
    assert ((unitIndex <? length units - 1) = true) as -> by (apply Nat.ltb_lt; simpl; lia).
    cbn [andb]. apply IH; [lia..| |done|done].
    rewrite Hsize, Nat2Z.inj_succ, Z.pow_succ_r, inject_Z_mult by lia.
    change (inject_Z 1024) with 1024%Q. field.
    intros Hz. apply (Qlt_irrefl 0). rewrite <- Hz at 2. by rewrite <- (Zlt_Qlt 0).
Qed.

(** X5: With [d] the power of 1024 that fits the byte count (at most
    [1024 ^ 4]), [formatFileSize] prints [bytes / d] rounded to tenths,
    half up, in front of the unit of [d]; for byte counts below 2^53,
    which a double holds exactly. *)
Theorem formatFileSize_closed_form (b : N) (k : nat) (unit : string) :
  (b < 2 ^ 53)%N →
  units !! k = Some unit →
  (1024 ^ Z.of_nat k ≤ Z.of_N b)%Z →
  (k < 4 → (Z.of_N b < 1024 ^ Z.of_nat (S k))%Z) →
  let d := (1024 ^ Z.of_nat k)%Z in
  let tenths := ((20 * Z.of_N b + d) / (2 * d))%Z in
  formatFileSize (js_number b)
  = decimal (tenths / 10) +:+ "." +:+ decimal (tenths mod 10) +:+ " " +:+ unit.
Proof.
  intros _ Hunit Hlo Hhi d tenths.
  assert (k ≤ 4) as Hk by (apply lookup_lt_Some in Hunit; simpl in Hunit; lia).
  assert (0 < d)%Z as Hd by (apply Z.pow_pos_nonneg; lia).
  destruct (scale_loop_steps b k k 0 (inject_Z (Z.of_N b)) (length units))
    as (size & Hloop & Hsize); [done|done|simpl; lia| |done|done|].
  { change (inject_Z (1024 ^ Z.of_nat 0)) with 1%Q. field. }
  unfold formatFileSize. rewrite Hloop, Hunit. simpl default.
  fold d in Hsize.
  assert (0 <= size)%Q as Hnonneg.
  { rewrite Hsize. apply Qle_shift_div_l; [by rewrite <- (Zlt_Qlt 0)|].
    rewrite Qmult_0_l. change 0%Q with (inject_Z 0). rewrite <- Zle_Qle. lia. }
  unfold toFixed1. rewrite (proj2 (Qle_bool_iff 0 size) Hnonneg).
  unfold toFixed1_nonneg.
  assert (Qfloor (size * 10 + (1 # 2)) = tenths) as ->; [|by rewrite !string_app_assoc].
  destruct (2 * d)%Z as [|p|p] eqn:Hp; [lia| |lia].
  transitivity (Qfloor ((20 * Z.of_N b + d) # p)).
  - apply Qfloor_comp. rewrite Hsize, (Qmake_Qdiv (20 * Z.of_N b + d) p), <- Hp.
    rewrite !inject_Z_plus, !inject_Z_mult. field.
    intros Hz. apply (Qlt_irrefl 0). rewrite <- Hz at 2. by rewrite <- (Zlt_Qlt 0).
  - reflexivity.
Qed.

Lemma formatFileSize_closed_form_witness :
  formatFileSize (js_number 1048575) = "1024.0 KB".
Proof.
  exact (formatFileSize_closed_form 1048575 1 "KB" ltac:(lia) eq_refl ltac:(lia)
           ltac:(intros; lia)).
Defined.

(** ** Expansion and selection *)

Lemma fmap_children_ext (f g : TreeNode.t → TreeNode.t) children :
  Forall (λ child, f child = g child) children → f <$> children = g <$> children.
Proof. induction 1; [done|]. cbn. by f_equal. Qed.

Lemma fmap_children_id (f : TreeNode.t → TreeNode.t) children :
  Forall (λ child, f child = child) children → f <$> children = children.
Proof. induction 1; [done|]. cbn. by f_equal. Qed.

Lemma toggleExpansion_node_twice (nodeId : string) (node : TreeNode.t) :
  toggleExpansion_node nodeId (toggleExpansion_node nodeId node) = node.
Proof.
  induction node as [node IH] using TreeNode_children_ind.
  destruct node as [id name path type children size isExpanded isSelected level].
  cbn [toggleExpansion_node]. simpl in *.
  case_bool_decide as Hid.
  - cbn [toggleExpansion_node]. simpl. rewrite bool_decide_eq_true_2 by done.
    simpl. by rewrite negb_involutive.
  - destruct children as [|child children].
    + cbn [toggleExpansion_node]. simpl. by rewrite bool_decide_eq_false_2.
    + cbn [toggleExpansion_node]. simpl. rewrite bool_decide_eq_false_2 by done.
      inversion IH as [|? ? Hchild Hchildren]; subst.
      cbn. unfold TreeNode.set_children. simpl. f_equal. rewrite Hchild. f_equal.
      change (list_fmap _ _ ?f ?l) with (f <$> l).
      rewrite <- list_fmap_compose. by apply fmap_children_id.
Qed.

(** X7: Toggling the expansion of a node twice gives the state back: the
    tree with every flag as it was, at any depth, whichever id is used. *)
Theorem toggleNodeExpansion_twice (nodeId : string) (st : AppState) :
  toggleNodeExpansion nodeId (toggleNodeExpansion nodeId st) = st.
Proof.
  unfold toggleNodeExpansion. destruct st. simpl. unfold setTreeData. simpl. f_equal.
  rewrite <- list_fmap_compose. apply fmap_children_id, Forall_forall.
  intros node _. apply toggleExpansion_node_twice.
Qed.

(** *** Nothing but the flags changes *)

Lemma skeleton_children (f : TreeNode.t → TreeNode.t) children :
  Forall (λ child, skeleton (f child) = skeleton child) children →
  skeleton <$> (f <$> children) = skeleton <$> children.
Proof. intros H. rewrite <- list_fmap_compose. by apply fmap_children_ext. Qed.

Lemma skeleton_unfold node :
  skeleton node
  = TreeNode.mk (TreeNode.id node) (TreeNode.name node) (TreeNode.path node)
      (TreeNode.type node) (skeleton <$> TreeNode.children node) (TreeNode.size node)
      false false (TreeNode.level node).
Proof. by destruct node. Qed.

Lemma toggleExpansion_node_skeleton nodeId node :
  skeleton (toggleExpansion_node nodeId node) = skeleton node.
Proof.
  induction node as [node IH] using TreeNode_children_ind.
  destruct node as [id name path type children size isExpanded isSelected level].
  cbn [toggleExpansion_node]. simpl in *. case_bool_decide; [done|].
  destruct children as [|child children]; [done|].
  rewrite !skeleton_unfold. cbn. f_equal.
  by apply (skeleton_children _ (child :: children)).
Qed.

Lemma toggleSelection_node_skeleton nodeId isSelected override node :
  skeleton (toggleSelection_node nodeId isSelected override node) = skeleton node.
Proof.
  revert override. induction node as [node IH] using TreeNode_children_ind. intros override.
  destruct node as [id name path type children size isExpanded isSelected' level].
  cbn [toggleSelection_node]. simpl in *.
  case_bool_decide.
  - destruct type, children as [|child children], override; try done;
      rewrite !skeleton_unfold; cbn; f_equal;
      apply (skeleton_children _ (child :: children));
      (eapply Forall_impl; [exact IH|]); intros c Hc; apply Hc.
  - destruct children as [|child children], override; try done;
      rewrite !skeleton_unfold; cbn; f_equal;
      apply (skeleton_children _ (child :: children));
      (eapply Forall_impl; [exact IH|]); intros c Hc; apply Hc.
Qed.

Lemma selectAll_node_skeleton node : skeleton (selectAll_node node) = skeleton node.
Proof.
  induction node as [node IH] using TreeNode_children_ind.
  destruct node as [id name path type children size isExpanded isSelected level].
  cbn [selectAll_node]. simpl in *.
  destruct type; [|done]. destruct children as [|child children]; [done|].
  rewrite !skeleton_unfold. cbn. f_equal. by apply (skeleton_children _ (child :: children)).
Qed.

Lemma deselectAll_node_skeleton node : skeleton (deselectAll_node node) = skeleton node.
Proof.
  induction node as [node IH] using TreeNode_children_ind.
  destruct node as [id name path type children size isExpanded isSelected level].
  cbn [deselectAll_node]. simpl in *.
  destruct type; [|done]. destruct children as [|child children]; [done|].
  rewrite !skeleton_unfold. cbn. f_equal. by apply (skeleton_children _ (child :: children)).
Qed.

(** X8: Whatever the user does in the result pane, the tree keeps its shape
    and every node its id, name, path, type, size and level; the scan
    results are not touched either. *)
Theorem ui_run_skeleton (events : list UiEvent) (st : AppState) :
  skeleton <$> treeData (ui_run events st) = skeleton <$> treeData st
  ∧ scanResults (ui_run events st) = scanResults st.
Proof.
  unfold ui_run. revert st. induction events as [|event events IH]; intros st; [done|].
  cbn [foldl]. destruct (IH (ui_step st event)) as [-> ->].
  assert (∀ f : TreeNode.t → TreeNode.t, (∀ node, skeleton (f node) = skeleton node) →
            skeleton <$> (f <$> treeData st) = skeleton <$> treeData st) as Hmap.
  { intros f Hf. apply skeleton_children, Forall_forall. auto. }
  destruct event; simpl.
  - split; [|done]. apply Hmap, toggleExpansion_node_skeleton.
  - split; [|done]. apply Hmap. intros node. apply toggleSelection_node_skeleton.
  - split; [|done]. apply Hmap, selectAll_node_skeleton.
  - split; [|done]. apply Hmap, deselectAll_node_skeleton.
  - unfold handleBulkDelete. by case_bool_decide.
Qed.

(** *** The collector, exactly *)

Lemma Set_add_NoDup x s : NoDup s → NoDup (Set_add x s).
Proof.
  intros H. unfold Set_add. case_bool_decide as Hx; [done|].
  apply NoDup_app. split; [done|]. split; [|apply NoDup_singleton].
  by intros y Hy ->%list_elem_of_singleton.
Qed.

Lemma collect_node_acc node acc :
  (NoDup acc → NoDup (collect_node node acc))
  ∧ ∀ p, p ∈ acc → p ∈ collect_node node acc.
Proof.
  revert acc. induction node as [node IH] using TreeNode_children_ind. intros acc.
  destruct node as [id name path type children size isExpanded isSelected level].
  cbn [collect_node]. simpl in *.
  set (acc' := if isSelected && bool_decide (type = node_modules)
               then Set_add path acc else acc).
  assert ((NoDup acc → NoDup acc') ∧ ∀ p, p ∈ acc → p ∈ acc') as [Hnd Hin].
  { subst acc'. destruct (isSelected && _); [|done].
    split; [apply Set_add_NoDup|]. intros p Hp. apply Set_add_elem. by left. }
  clearbody acc'. revert acc' Hnd Hin.
  induction IH as [|child children Hchild _ IHchildren]; intros acc' Hnd Hin; [done|].
  cbn [foldl]. apply IHchildren.
  - intros H. by apply Hchild, Hnd.
  - intros p Hp. by apply Hchild, Hin.
Qed.

Lemma foldl_collect_acc children acc :
  (NoDup acc → NoDup (foldl (λ acc child, collect_node child acc) acc children))
  ∧ ∀ p, p ∈ acc → p ∈ foldl (λ acc child, collect_node child acc) acc children.
Proof.
  revert acc. induction children as [|child children IH]; intros acc; [done|].
  cbn [foldl]. destruct (IH (collect_node child acc)) as [Hnd Hin].
  destruct (collect_node_acc child acc) as [Hnd' Hin']. split; auto.
Qed.

Lemma foldl_collect_complete children acc p n :
  Forall (λ child, ∀ acc, n ∈ subnodes child → p ∈ collect_node child acc) children →
  n ∈ flat_map subnodes children →
  p ∈ foldl (λ acc child, collect_node child acc) acc children.
Proof.
  intros H. revert acc. induction H as [|child children Hchild _ IH]; intros acc Hn.
  { by apply elem_of_nil in Hn. }
  simpl in Hn. apply elem_of_app in Hn as [Hn|Hn]; cbn [foldl].
  - by apply foldl_collect_acc, Hchild.
  - by apply IH.
Qed.

Lemma collect_node_complete node acc p n :
  n ∈ subnodes node → selected_node_modules p n → p ∈ collect_node node acc.
Proof.
  intros Hn Hsel. revert acc Hn.
  induction node as [node IH] using TreeNode_children_ind. intros acc Hn.
  destruct node as [id name path type children size isExpanded isSelected level].
  cbn [collect_node]. simpl in *.
  apply elem_of_cons in Hn as [->|Hn].
  - destruct Hsel as (Hty & Hflag & Hpath). simpl in *. subst.
    rewrite bool_decide_eq_true_2 by done. simpl.
    apply foldl_collect_acc, Set_add_elem. by right.
  - eapply foldl_collect_complete; [|done].
    eapply Forall_impl; [exact IH|]. intros child Hchild acc' Hn'. by apply Hchild.
Qed.

Lemma updateSelectedItems_NoDup (nodes : list TreeNode.t) :
  NoDup (updateSelectedItems nodes).
Proof. apply foldl_collect_acc. constructor. Qed.

Lemma updateSelectedItems_complete (nodes : list TreeNode.t) (p : string) :
  (∃ n, n ∈ flat_map subnodes nodes
        ∧ TreeNode.type n = node_modules ∧ TreeNode.isSelected n = true
        ∧ TreeNode.path n = p) →
  p ∈ updateSelectedItems nodes.
Proof.
  intros (n & Hn & Hsel). eapply foldl_collect_complete; [|done].
  apply Forall_forall. intros child _ acc Hn'. by eapply collect_node_complete.
Qed.

(** X9: The collector returns the paths of the selected [node_modules]
    nodes, all of them and each once. *)
Theorem updateSelectedItems_exact (nodes : list TreeNode.t) :
  NoDup (updateSelectedItems nodes)
  ∧ ∀ p, p ∈ updateSelectedItems nodes
         ↔ ∃ n, n ∈ flat_map subnodes nodes
                ∧ TreeNode.type n = node_modules ∧ TreeNode.isSelected n = true
                ∧ TreeNode.path n = p.
Proof.
  split; [apply updateSelectedItems_NoDup|]. intros p. split.
  - apply updateSelectedItems_sound.
  - apply updateSelectedItems_complete.
Qed.

(** *** Select all, deselect all *)

Lemma sized_tree_leaves : node_modules_leaves (treeData (loaded sized_results sized_tree)).
Proof.
  intros n Hn Hty. vm_compute in Hn.
  repeat (apply elem_of_cons in Hn as [->|Hn]); try done. by apply elem_of_nil in Hn.
Qed.

Lemma node_modules_leaves_cons node nodes :
  node_modules_leaves (node :: nodes) →
  node_modules_leaves [node] ∧ node_modules_leaves nodes.
Proof.
  intros H. split; intros n Hn; apply H; simpl in *; apply elem_of_app.
  - left. by rewrite app_nil_r in Hn.
  - by right.
Qed.

Lemma node_modules_leaves_children node :
  node_modules_leaves [node] → node_modules_leaves (TreeNode.children node).
Proof.
  intros H n Hn. apply H. simpl. rewrite app_nil_r.
  destruct node. simpl in *. by apply list_elem_of_further.
Qed.

Lemma subnodes_fmap_forall (f : TreeNode.t → TreeNode.t) (Q : TreeNode.t → Prop) nodes :
  Forall (λ node, node_modules_leaves [node] → ∀ n, n ∈ subnodes (f node) → Q n) nodes →
  node_modules_leaves nodes →
  ∀ n, n ∈ flat_map subnodes (f <$> nodes) → Q n.
Proof.
  induction 1 as [|node nodes Hnode _ IH]; intros Hleaves n Hn.
  { by apply elem_of_nil in Hn. }
  apply node_modules_leaves_cons in Hleaves as [Hleaf Hleaves].
  cbn in Hn. apply elem_of_app in Hn as [Hn|Hn]; [by eapply Hnode|by eapply IH].
Qed.

Lemma selectAll_node_flags node :
  node_modules_leaves [node] →
  ∀ n, n ∈ subnodes (selectAll_node node) → TreeNode.type n = node_modules →
       TreeNode.isSelected n = true.
Proof.
  induction node as [node IH] using TreeNode_children_ind. intros Hleaves.
  pose proof (node_modules_leaves_children node Hleaves) as Hbelow.
  assert (TreeNode.type node = node_modules → TreeNode.children node = []) as Hleaf.
  { apply Hleaves. simpl. destruct node. apply list_elem_of_here. }
  destruct node as [id name path type children size isExpanded isSelected level].
  cbn [selectAll_node]. simpl in *.
  destruct type.
  - destruct children as [|child children].
    + intros n ->%list_elem_of_singleton. done.
    + intros n [->|Hn]%elem_of_cons; [done|].
      simpl in Hn. revert n Hn.
      by apply (subnodes_fmap_forall selectAll_node
                  (λ n, TreeNode.type n = node_modules → TreeNode.isSelected n = true)
                  (child :: children)).
  - rewrite Hleaf by done. by intros n ->%list_elem_of_singleton.
Qed.

Lemma deselectAll_node_flags node :
  node_modules_leaves [node] →
  ∀ n, n ∈ subnodes (deselectAll_node node) → TreeNode.type n = node_modules →
       TreeNode.isSelected n = false.
Proof.
  induction node as [node IH] using TreeNode_children_ind. intros Hleaves.
  pose proof (node_modules_leaves_children node Hleaves) as Hbelow.
  assert (TreeNode.type node = node_modules → TreeNode.children node = []) as Hleaf.
  { apply Hleaves. simpl. destruct node. apply list_elem_of_here. }
  destruct node as [id name path type children size isExpanded isSelected level].
  cbn [deselectAll_node]. simpl in *.
  destruct type.
  - destruct children as [|child children].
    + intros n ->%list_elem_of_singleton. done.
    + intros n [->|Hn]%elem_of_cons; [done|].
      simpl in Hn. revert n Hn.
      by apply (subnodes_fmap_forall deselectAll_node
                  (λ n, TreeNode.type n = node_modules → TreeNode.isSelected n = false)
                  (child :: children)).
  - rewrite Hleaf by done. by intros n ->%list_elem_of_singleton.
Qed.

(** X10: In a tree whose [node_modules] nodes are leaves, Select All selects
    exactly the paths of the [node_modules] nodes, each once. *)
Theorem selectAllNodeModules_selects (st : AppState) :
  node_modules_leaves (treeData st) →
  NoDup (selectedItems (selectAllNodeModules st))
  ∧ ∀ p, p ∈ selectedItems (selectAllNodeModules st)
         ↔ ∃ n, n ∈ flat_map subnodes (treeData st)
                ∧ TreeNode.type n = node_modules ∧ TreeNode.path n = p.
Proof.
  intros Hleaves. unfold selectAllNodeModules. simpl.
  split; [apply updateSelectedItems_NoDup|]. intros p.
  assert (p ∈ updateSelectedItems (selectAll_node <$> treeData st)
          ↔ ∃ n, n ∈ flat_map subnodes (selectAll_node <$> treeData st)
                 ∧ TreeNode.type n = node_modules ∧ TreeNode.isSelected n = true
                 ∧ TreeNode.path n = p) as Hiff
    by (split; [apply updateSelectedItems_sound|apply updateSelectedItems_complete]).
  rewrite Hiff, <- kinds_elem.
  rewrite <- (kinds_update selectAll_node (treeData st) selectAll_node_kinds), kinds_elem.
  split.
  - intros (n & Hn & Hty & _ & Hp). eauto.
  - intros (n & Hn & Hty & Hp). exists n. repeat (split; [done|]). split; [|done].
    revert Hty.
    eapply (subnodes_fmap_forall selectAll_node
              (λ n, TreeNode.type n = node_modules → TreeNode.isSelected n = true));
      [|done..].
    apply Forall_forall. intros node _. apply selectAll_node_flags.
Qed.

(** X11: In a tree whose [node_modules] nodes are leaves, Deselect All
    leaves nothing selected. *)
Theorem deselectAllNodeModules_clears (st : AppState) :
  node_modules_leaves (treeData st) →
  selectedItems (deselectAllNodeModules st) = [].
Proof.
  intros Hleaves. unfold deselectAllNodeModules. simpl.
  destruct (updateSelectedItems (deselectAll_node <$> treeData st)) as [|p l] eqn:Heq; [done|].
  assert (p ∈ updateSelectedItems (deselectAll_node <$> treeData st)) as Hp.
  { rewrite Heq. apply list_elem_of_here. }
  apply updateSelectedItems_sound in Hp as (n & Hn & Hty & Hflag & _).
  assert (TreeNode.isSelected n = false); [|congruence].
  revert Hty.
  eapply (subnodes_fmap_forall deselectAll_node
            (λ n, TreeNode.type n = node_modules → TreeNode.isSelected n = false));
    [|done..].
  apply Forall_forall. intros node _. apply deselectAll_node_flags.
Qed.

(** *** Rows *)

Lemma rows_all_list depth nodes :
  Forall (λ node, ∀ depth,
            (∀ n, n ∈ subnodes node → TreeNode.children n ≠ [] →
                  TreeNode.isExpanded n = true) →
            (rows depth node).*2 = subnodes node) nodes →
  (∀ n, n ∈ flat_map subnodes nodes → TreeNode.children n ≠ [] →
        TreeNode.isExpanded n = true) →
  (flat_map (rows depth) nodes).*2 = flat_map subnodes nodes.
Proof.
  induction 1 as [|c cs Hc _ IHcs]; intros Hopen; [done|].
  cbn [flat_map]. rewrite fmap_app. f_equal.
  - apply Hc. intros n Hn. apply Hopen. simpl. apply elem_of_app. by left.
  - apply IHcs. intros n Hn. apply Hopen. simpl. apply elem_of_app. by right.
Qed.

Lemma rows_all depth node :
  (∀ n, n ∈ subnodes node → TreeNode.children n ≠ [] → TreeNode.isExpanded n = true) →
  (rows depth node).*2 = subnodes node.
Proof.
  revert depth. induction node as [node IH] using TreeNode_children_ind. intros depth Hopen.
  assert (TreeNode.children node ≠ [] → TreeNode.isExpanded node = true) as Hnode.
  { apply Hopen. destruct node. apply list_elem_of_here. }
  destruct node as [id name path type children size isExpanded isSelected level].
  cbn [rows subnodes]. simpl in *.
  destruct children as [|child children]; [done|].
  rewrite Hnode by done. cbn [fmap list_fmap snd]. f_equal.
  apply (rows_all_list (S depth) (child :: children) IH).
  intros n Hn. apply Hopen. by apply list_elem_of_further.
Qed.

Lemma selectAll_node_open node :
  node_modules_leaves [node] →
  ∀ n, n ∈ subnodes (selectAll_node node) → TreeNode.children n ≠ [] →
       TreeNode.isExpanded n = true.
Proof.
  induction node as [node IH] using TreeNode_children_ind. intros Hleaves.
  pose proof (node_modules_leaves_children node Hleaves) as Hbelow.
  assert (TreeNode.type node = node_modules → TreeNode.children node = []) as Hleaf.
  { apply Hleaves. simpl. destruct node. apply list_elem_of_here. }
  destruct node as [id name path type children size isExpanded isSelected level].
  cbn [selectAll_node]. simpl in *.
  destruct type.
  - destruct children as [|child children].
    + intros n ->%list_elem_of_singleton. done.
    + intros n [->|Hn]%elem_of_cons; [done|].
      simpl in Hn. revert n Hn.
      by apply (subnodes_fmap_forall selectAll_node
                  (λ n, TreeNode.children n ≠ [] → TreeNode.isExpanded n = true)
                  (child :: children)).
  - rewrite Hleaf by done. by intros n ->%list_elem_of_singleton.
Qed.

(** X12: After Select All, in a tree whose [node_modules] nodes are leaves,
    every node of the tree has a row. *)
Theorem selectAllNodeModules_rows (st : AppState) :
  node_modules_leaves (treeData st) →
  (render_rows (treeData (selectAllNodeModules st))).*2
  = flat_map subnodes (treeData (selectAllNodeModules st)).
Proof.
  intros Hleaves. unfold selectAllNodeModules, render_rows. simpl.
  induction (treeData st) as [|node nodes IH]; [done|].
  apply node_modules_leaves_cons in Hleaves as [Hnode Hnodes].
  cbn [fmap list_fmap flat_map]. rewrite fmap_app. f_equal; [|by apply IH].
  apply rows_all. by apply selectAll_node_open.
Qed.

(** *** The size badge *)

(** X6: A row shows no size badge exactly when the size is absent or zero,
    and a badge that is shown never reads as the placeholder. *)
Theorem size_badge_hidden (node : TreeNode.t) :
  (size_badge node = None ↔ or_zero (TreeNode.size node) = 0%N)
  ∧ ∀ text, size_badge node = Some text →
            text = formatFileSize (TreeNode.size node) ∧ text ≠ "—".
Proof.
  unfold size_badge. destruct (TreeNode.size node) as [| |n]; [done..|]. cbn [or_zero].
  destruct (0 <? n)%N eqn:Hn.
  - apply N.ltb_lt in Hn. split; [split; [done|lia]|].
    intros text Htext. apply (inj Some) in Htext. subst text. split; [done|].
    destruct (formatFileSize_number n) as (whole & tenth & unit & Heq & _).
    rewrite Heq. clear Heq.
    destruct (decimal_head whole) as (c & rest & -> & Hc).
    intros Heq. apply Hc. by injection Heq.
  - apply N.ltb_ge in Hn. split; [split; [lia|done]|done].
Qed.

(** *** A click on a checkbox *)

Lemma subnodes_here node : node ∈ subnodes node.
Proof. destruct node. apply list_elem_of_here. Qed.

Lemma subnodes_below node n :
  n ∈ flat_map subnodes (TreeNode.children node) → n ∈ subnodes node.
Proof. destruct node. apply list_elem_of_further. Qed.

Lemma toggleSelection_node_root nodeId isSelected override node :
  TreeNode.type (toggleSelection_node nodeId isSelected override node) = TreeNode.type node
  ∧ TreeNode.path (toggleSelection_node nodeId isSelected override node) = TreeNode.path node
  ∧ TreeNode.isSelected (toggleSelection_node nodeId isSelected override node)
    = if bool_decide (TreeNode.id node = nodeId) then isSelected
      else default (TreeNode.isSelected node) override.
Proof.
  destruct node as [id name path type children size isExpanded isSelected' level].
  cbn [toggleSelection_node]. simpl.
  case_bool_decide; destruct type, children, override; done.
Qed.

Lemma toggleSelection_node_children nodeId isSelected override node :
  TreeNode.type node = folder ∨ TreeNode.id node ≠ nodeId →
  TreeNode.children (toggleSelection_node nodeId isSelected override node)
  = toggleSelection_node nodeId isSelected
      (if bool_decide (TreeNode.id node = nodeId) then Some isSelected else None)
    <$> TreeNode.children node.
Proof.
  destruct node as [id name path type children size isExpanded isSelected' level].
  cbn [toggleSelection_node]. simpl. intros Hcase.
  case_bool_decide.
  - destruct Hcase as [->|?]; [|done]. destruct children, override; done.
  - destruct children, override; done.
Qed.

Lemma toggleSelection_node_sets nodeId isSelected node :
  node_modules_leaves [node] →
  ∀ override n, n ∈ subnodes node → TreeNode.id n = nodeId →
    ∃ n', n' ∈ subnodes (toggleSelection_node nodeId isSelected override node)
          ∧ TreeNode.type n' = TreeNode.type n ∧ TreeNode.path n' = TreeNode.path n
          ∧ TreeNode.isSelected n' = isSelected.
Proof.
  induction node as [node IH] using TreeNode_children_ind. intros Hleaves override n Hn Hid.
  pose proof (node_modules_leaves_children node Hleaves) as Hbelow.
  assert (TreeNode.type node = node_modules → TreeNode.children node = []) as Hleaf.
  { apply Hleaves. simpl. destruct node. apply list_elem_of_here. }
  destruct (toggleSelection_node_root nodeId isSelected override node) as (Hty & Hpath & Hflag).
  assert (n = node ∨ n ∈ flat_map subnodes (TreeNode.children node)) as [->|Hin].
  { destruct node. by apply elem_of_cons in Hn. }
  - eexists. split; [apply subnodes_here|].
    rewrite Hflag, bool_decide_eq_true_2 by done. done.
  - assert (TreeNode.type node = folder) as Hfolder.
    { destruct (TreeNode.type node) eqn:Hnm; [done|].
      rewrite Hleaf in Hin by done. by apply elem_of_nil in Hin. }
    pose proof (toggleSelection_node_children nodeId isSelected override node
                  (or_introl Hfolder)) as Hchildren.
    set (o := if bool_decide (TreeNode.id node = nodeId) then Some isSelected else None) in *.
    assert (∃ n', n' ∈ flat_map subnodes
                    (toggleSelection_node nodeId isSelected o <$> TreeNode.children node)
                  ∧ TreeNode.type n' = TreeNode.type n ∧ TreeNode.path n' = TreeNode.path n
                  ∧ TreeNode.isSelected n' = isSelected) as (n' & Hn' & Hrest).
    { clear Hchildren Hleaf Hleaves Hn. revert Hbelow Hin.
      induction IH as [|c cs Hc _ IHcs]; intros Hbelow Hin; [by apply elem_of_nil in Hin|].
      apply node_modules_leaves_cons in Hbelow as [Hc' Hcs'].
      simpl in Hin. apply elem_of_app in Hin as [Hin|Hin].
      - destruct (Hc Hc' o n Hin Hid) as (n' & Hn' & Hrest).
        exists n'. split; [|done]. cbn. apply elem_of_app. by left.
      - destruct (IHcs Hcs' Hin) as (n' & Hn' & Hrest).
        exists n'. split; [|done]. cbn. apply elem_of_app. by right. }
    exists n'. split; [|done]. rewrite <- Hchildren in Hn'. by apply subnodes_below.
Qed.

Lemma toggleSelection_nodes_sets nodeId isSelected nodes n :
  node_modules_leaves nodes → n ∈ flat_map subnodes nodes → TreeNode.id n = nodeId →
  ∃ n', n' ∈ flat_map subnodes (toggleSelection_node nodeId isSelected None <$> nodes)
        ∧ TreeNode.type n' = TreeNode.type n ∧ TreeNode.path n' = TreeNode.path n
        ∧ TreeNode.isSelected n' = isSelected.
Proof.
  intros Hleaves Hn Hid. induction nodes as [|node nodes IH]; [by apply elem_of_nil in Hn|].
  apply node_modules_leaves_cons in Hleaves as [Hnode Hnodes].
  simpl in Hn. apply elem_of_app in Hn as [Hn|Hn].
  - destruct (toggleSelection_node_sets nodeId isSelected node Hnode None n Hn Hid)
      as (n' & Hn' & Hrest).
    exists n'. split; [|done]. cbn. apply elem_of_app. by left.
  - destruct (IH Hnodes Hn) as (n' & Hn' & Hrest).
    exists n'. split; [|done]. cbn. apply elem_of_app. by right.
Qed.

(** X13: A click that checks a [node_modules] row selects the node in the
    tree, but [selectedItems] is collected from the tree as it was before
    the click (it is [updateSelectedItems] of the old tree): a path that
    was not selected in the old tree is still missing from it, although
    the new tree has it selected. *)
Theorem toggleNodeSelection_lags (nodeId : string) (st : AppState) (n : TreeNode.t) :
  node_modules_leaves (treeData st) →
  n ∈ flat_map subnodes (treeData st) →
  TreeNode.type n = node_modules → TreeNode.id n = nodeId →
  ¬ (TreeNode.path n ∈ updateSelectedItems (treeData st)) →
  let st' := toggleNodeSelection nodeId true st in
  selectedItems st' = updateSelectedItems (treeData st)
  ∧ ¬ (TreeNode.path n ∈ selectedItems st')
  ∧ TreeNode.path n ∈ updateSelectedItems (treeData st').
Proof.
  intros Hleaves Hn Hty Hid Hnot st'. split; [done|]. split; [done|].
  destruct (toggleSelection_nodes_sets nodeId true (treeData st) n Hleaves Hn Hid)
    as (n' & Hn' & Hty' & Hpath' & Hflag).
  apply updateSelectedItems_complete. exists n'. split; [done|]. split; [congruence|]. done.
Qed.

Lemma toggleNodeSelection_lags_witness :
  let st := loaded sized_results sized_tree in
  let st' := toggleNodeSelection "node_modules-/r/app/node_modules" true st in
  selectedItems st' = []
  ∧ ¬ ("/r/app/node_modules" ∈ selectedItems st')
  ∧ "/r/app/node_modules" ∈ updateSelectedItems (treeData st').
Proof.
  refine (toggleNodeSelection_lags "node_modules-/r/app/node_modules"
            (loaded sized_results sized_tree)
            (TreeNode.mk "node_modules-/r/app/node_modules" "node_modules"
               "/r/app/node_modules" node_modules [] (js_number 300) false false 3)
            _ _ eq_refl eq_refl _).
  - apply sized_tree_leaves.
  - vm_compute. do 2 apply list_elem_of_further. apply list_elem_of_here.
  - vm_compute. apply not_elem_of_nil.
Defined.

Lemma toggleSelection_node_other nodeId isSelected node :
  TreeNode.id node ≠ nodeId →
  TreeNode.isSelected (toggleSelection_node nodeId isSelected None node)
  = TreeNode.isSelected node.
Proof.
  intros Hid. destruct (toggleSelection_node_root nodeId isSelected None node) as (_ & _ & ->).
  by rewrite bool_decide_eq_false_2.
Qed.

(** X14: A click on a folder's checkbox sets the flag of the folder and of
    its children, but a grandchild with another id keeps its flag. *)
Theorem toggleSelection_node_folder (nodeId : string) (isSelected : bool) (node : TreeNode.t) :
  TreeNode.id node = nodeId → TreeNode.type node = folder →
  let node' := toggleSelection_node nodeId isSelected None node in
  TreeNode.isSelected node' = isSelected
  ∧ Forall2
      (λ child child',
         TreeNode.isSelected child' = isSelected
         ∧ (TreeNode.id child ≠ nodeId →
            Forall2
              (λ grandchild grandchild',
                 TreeNode.id grandchild ≠ nodeId →
                 TreeNode.isSelected grandchild' = TreeNode.isSelected grandchild)
              (TreeNode.children child) (TreeNode.children child')))
      (TreeNode.children node) (TreeNode.children node').
Proof.
  intros Hid Hfolder node'. subst node'.
  destruct (toggleSelection_node_root nodeId isSelected None node) as (_ & _ & ->).
  rewrite bool_decide_eq_true_2 by done. split; [done|].
  rewrite toggleSelection_node_children by (by left).
  rewrite bool_decide_eq_true_2 by done.
  apply Forall2_fmap_r, Forall_Forall2_diag, Forall_forall. intros child _. unfold compose.
  destruct (toggleSelection_node_root nodeId isSelected (Some isSelected) child)
    as (_ & _ & ->).
  split; [by case_bool_decide|]. intros Hchild.
  rewrite toggleSelection_node_children by (by right).
  rewrite bool_decide_eq_false_2 by done.
  apply Forall2_fmap_r, Forall_Forall2_diag, Forall_forall. intros grandchild _. unfold compose.
  intros Hgrand.
  by apply toggleSelection_node_other.
Qed.

Lemma selectAllNodeModules_selects_witness :
  let st := loaded sized_results sized_tree in
  NoDup (selectedItems (selectAllNodeModules st))
  ∧ ∀ p, p ∈ selectedItems (selectAllNodeModules st)
         ↔ ∃ n, n ∈ flat_map subnodes (treeData st)
                ∧ TreeNode.type n = node_modules ∧ TreeNode.path n = p.
Proof.
  exact (selectAllNodeModules_selects (loaded sized_results sized_tree) sized_tree_leaves).
Defined.

Lemma deselectAllNodeModules_clears_witness :
  selectedItems (deselectAllNodeModules (loaded sized_results sized_tree)) = [].
Proof.
  exact (deselectAllNodeModules_clears (loaded sized_results sized_tree) sized_tree_leaves).
Defined.

Lemma selectAllNodeModules_rows_witness :
  let st := selectAllNodeModules (loaded sized_results sized_tree) in
  (render_rows (treeData st)).*2 = flat_map subnodes (treeData st).
Proof.
  exact (selectAllNodeModules_rows (loaded sized_results sized_tree) sized_tree_leaves).
Defined.

Lemma toggleSelection_node_folder_witness :
  let leaf := TreeNode.mk "node_modules-/r/app/node_modules" "node_modules"
                "/r/app/node_modules" node_modules [] (js_number 300) false false 3 in
  let node := TreeNode.mk "folder-r" "r" "/r" folder
                [TreeNode.mk "folder-r/app" "app" "/r/app" folder [leaf]
                   (js_number 300) true false 2]
                (js_number 300) true false 1 in
  let node' := toggleSelection_node "folder-r" true None node in
  TreeNode.isSelected node' = true
  ∧ Forall2
      (λ child child',
         TreeNode.isSelected child' = true
         ∧ (TreeNode.id child ≠ "folder-r" →
            Forall2
              (λ grandchild grandchild',
                 TreeNode.id grandchild ≠ "folder-r" →
                 TreeNode.isSelected grandchild' = TreeNode.isSelected grandchild)
              (TreeNode.children child) (TreeNode.children child')))
      (TreeNode.children node) (TreeNode.children node').
Proof.
  exact (toggleSelection_node_folder "folder-r" true
           (TreeNode.mk "folder-r" "r" "/r" folder
              [TreeNode.mk "folder-r/app" "app" "/r/app" folder
                 [TreeNode.mk "node_modules-/r/app/node_modules" "node_modules"
                    "/r/app/node_modules" node_modules [] (js_number 300) false false 3]
                 (js_number 300) true false 2]
              (js_number 300) true false 1)
           eq_refl eq_refl).
Defined.

(** ** More on buildTreeFromResults *)

Lemma extends_refl b : extends b b.
Proof. intros x c Hx. eauto. Qed.

Lemma extends_trans b1 b2 b3 : extends b1 b2 → extends b2 b3 → extends b1 b3.
Proof.
  intros H12 H23 x c Hx.
  destruct (H12 x c Hx) as (c2 & Hx2 & Hcore2 & Hp2).
  destruct (H23 x c2 Hx2) as (c3 & Hx3 & Hcore3 & Hp3).
  exists c3. split; [done|]. split; [congruence|]. auto.
Qed.

Lemma extends_attach parentNode key new add_root b :
  Cell.children new = [] → folder_ref (heap b) parentNode →
  extends b (attach parentNode key new add_root b).
Proof.
  intros Hnew Hparent x c Hx.
  destruct (core_lookup (heap b) (heap (attach parentNode key new add_root b)) [core new] x c)
    as (c' & Hx' & Hcore); [apply core_attach|done|].
  exists c'. split; [done|]. split; [done|].
  intros p Hp. apply is_child_attach; [done..|]. by left.
Qed.

Lemma folder_loop_extends projectPathParts rest i currentPath parentNode b :
  build_inv b → folder_ref (heap b) parentNode →
  let r := folder_loop projectPathParts i rest currentPath parentNode b in
  extends b r.2
  ∧ ((parentNode ≠ None ∨ ∃ part, part ∈ rest ∧ part ≠ "") → r.1 ≠ None)
  ∧ ((parentNode = None ∧ Forall (λ part, part = "") rest) → r = (None, b)).
Proof.
  revert i currentPath parentNode b.
  induction rest as [|part rest IH]; intros i currentPath parentNode b Hinv Hparent.
  { simpl. split; [apply extends_refl|]. split.
    - intros [?|(part & Hpart%elem_of_nil & _)]; done.
    - by intros [-> _]. }
  cbn [folder_loop]. case_bool_decide as Hpart.
  - destruct (IH (S i) currentPath parentNode b Hinv Hparent) as (Hext & Hsome & Hnone).
    split; [done|]. split.
    + intros [?|(part' & [->|Hin]%elem_of_cons & Hne)]; [by apply Hsome; left|done|].
      apply Hsome. right. eauto.
    + intros [Hp Hall]. apply Hnone. split; [done|]. by inversion Hall.
  - set (currentPath' := if bool_decide (currentPath = "") then part
                         else currentPath +:+ "/" +:+ part).
    set (nodeId := "folder-" +:+ currentPath').
    destruct (treeMap b !! nodeId) as [r|] eqn:Hlookup.
    + rewrite Hlookup.
      destruct (IH (S i) currentPath' (Some r) b Hinv) as (Hext & Hsome & _).
      { by eapply (inv_map b Hinv). }
      split; [done|]. split; [intros _; apply Hsome; by left|].
      intros [_ Hall]. by inversion Hall.
    + set (newNode := Cell.mk nodeId part (join "/" (take (S i) projectPathParts)) folder []
                        (js_number 0) (bool_decide (i < 2)) false i).
      change (match parentNode with
              | Some parent => _
              | None => _
              end) with (attach parentNode nodeId newNode true b).
      rewrite treeMap_attach, lookup_insert_eq.
      destruct (IH (S i) currentPath' (Some (length (heap b)))
                  (attach parentNode nodeId newNode true b)) as (Hext & Hsome & _).
      * by apply build_inv_attach.
      * intros p [= <-]. exists newNode. split; [by apply lookup_attach_new|done].
      * split; [|split].
        -- eapply extends_trans; [|exact Hext]. by apply extends_attach.
        -- intros _. apply Hsome. by left.
        -- intros [_ Hall]. by inversion Hall.
Qed.

Lemma shown_extends b b' item x :
  extends b b' → shown (heap b) item x → shown (heap b') item x.
Proof.
  intros Hext (c & p & Hx & Hp & Hty & Hid & Hname & Hpath & Hsize).
  destruct (Hext x c Hx) as (c' & Hx' & Hcore & Hchild).
  apply core_fields in Hcore as (Hid' & Hname' & Hpath' & Hty' & Hsize' & _).
  exists c', p. split; [done|]. split; [by apply Hchild|]. repeat split; congruence.
Qed.

Lemma add_item_shown b item :
  build_inv b →
  extends b (add_item b item)
  ∧ (has_part item → ∃ x, shown (heap (add_item b item)) item x)
  ∧ (¬ has_part item → rootNodes (add_item b item) = rootNodes b).
Proof.
  intros Hinv. unfold add_item.
  set (parts := split_path (ScanItem.project_path item)).
  pose proof (folder_loop_inv parts parts 0 "" None b Hinv) as Hloop.
  pose proof (folder_loop_extends parts parts 0 "" None b Hinv) as Hloop'.
  destruct (folder_loop parts 0 parts "" None b) as [parentNode b1].
  destruct Hloop as (Hinv1 & Hparent & _); [by intros p|].
  destruct Hloop' as (Hext & Hsome & Hnone); [by intros p|]. simpl in *.
  set (nodeModulesId := "node_modules-" +:+ ScanItem.node_modules_path item).
  set (nodeModulesNode := Cell.mk nodeModulesId "node_modules" (ScanItem.node_modules_path item)
                            node_modules [] (ScanItem.size item) false false (length parts)).
  change (match parentNode with
          | Some parent => _
          | None => _
          end) with (attach parentNode nodeModulesId nodeModulesNode false b1).
  split; [|split].
  - eapply extends_trans; [exact Hext|]. by apply extends_attach.
  - intros Hpart. destruct parentNode as [parent|]; [|by destruct Hsome; [right|]].
    exists (length (heap b1)), nodeModulesNode, parent.
    split; [by apply lookup_attach_new|].
    split; [apply is_child_attach; [done..|]; by right|]. done.
  - intros Hpart.
    assert (Forall (λ part, part = "") parts) as Hall.
    { apply Forall_forall. intros part Hin. destruct (decide (part = "")); [done|].
      destruct Hpart. by exists part. }
    injection (Hnone (conj eq_refl Hall)) as -> ->. done.
Qed.

Lemma foldl_add_item_shown items b :
  build_inv b →
  extends b (foldl add_item b items)
  ∧ (∀ item, item ∈ items → has_part item →
       ∃ x, shown (heap (foldl add_item b items)) item x)
  ∧ (Forall (λ item, ¬ has_part item) items →
       rootNodes (foldl add_item b items) = rootNodes b).
Proof.
  revert b. induction items as [|item items IH]; intros b Hinv.
  { split; [apply extends_refl|]. split; [by intros item ?%elem_of_nil|done]. }
  destruct (add_item_inv b item Hinv) as [Hinv1 _].
  destruct (add_item_shown b item Hinv) as (Hext1 & Hshown1 & Hroots1).
  destruct (IH (add_item b item) Hinv1) as (Hext & Hshown & Hroots).
  cbn [foldl]. split; [by eapply extends_trans|]. split.
  - intros item' [->|Hin]%elem_of_cons Hpart; [|by apply Hshown].
    destruct (Hshown1 Hpart) as [x Hx]. exists x. by eapply shown_extends.
  - intros Hall. inversion Hall as [|? ? Hitem Hitems]; subst.
    rewrite Hroots by done. by apply Hroots1.
Qed.


(** *** The flags of a new tree *)

Lemma fresh_core c c' : core c' = core c → fresh c → fresh c'.
Proof.
  intros (_ & _ & _ & Hty & _ & Hexp & Hsel & Hlevel)%core_fields [H1 H2].
  unfold fresh. by rewrite Hty, Hexp, Hsel, Hlevel.
Qed.

Lemma fresh_attach parentNode key new add_root b :
  fresh new → Forall fresh (heap b) →
  Forall fresh (heap (attach parentNode key new add_root b)).
Proof.
  intros Hnew Hall.
  assert (Forall fresh (core <$> heap (attach parentNode key new add_root b))) as H.
  { rewrite core_attach. apply Forall_app. split.
    - apply Forall_fmap. eapply Forall_impl; [done|]. intros c. by apply fresh_core.
    - apply Forall_singleton. by apply (fresh_core new). }
  rewrite Forall_fmap in H. eapply Forall_impl; [exact H|].
  intros c. unfold compose. by apply fresh_core.
Qed.

Lemma folder_loop_fresh projectPathParts rest i currentPath parentNode b :
  Forall fresh (heap b) →
  Forall fresh (heap (folder_loop projectPathParts i rest currentPath parentNode b).2).
Proof.
  revert i currentPath parentNode b.
  induction rest as [|part rest IH]; intros i currentPath parentNode b Hall; [done|].
  cbn [folder_loop]. case_bool_decide as Hpart; [by apply IH|].
  set (currentPath' := if bool_decide (currentPath = "") then part
                       else currentPath +:+ "/" +:+ part).
  set (nodeId := "folder-" +:+ currentPath').
  destruct (treeMap b !! nodeId) as [r|] eqn:Hlookup; [by apply IH|].
  apply IH.
  set (newNode := Cell.mk nodeId part (join "/" (take (S i) projectPathParts)) folder []
                    (js_number 0) (bool_decide (i < 2)) false i).
  change (match parentNode with
          | Some parent => _
          | None => _
          end) with (attach parentNode nodeId newNode true b).
  apply fresh_attach; [|done]. split; [done|]. simpl.
  apply bool_decide_ext. split; [done|]. by intros [_ ?].
Qed.

Lemma add_item_fresh b item :
  Forall fresh (heap b) → Forall fresh (heap (add_item b item)).
Proof.
  intros Hall. unfold add_item.
  set (parts := split_path (ScanItem.project_path item)).
  pose proof (folder_loop_fresh parts parts 0 "" None b Hall) as Hloop.
  destruct (folder_loop parts 0 parts "" None b) as [parentNode b1]. simpl in Hloop.
  set (nodeModulesId := "node_modules-" +:+ ScanItem.node_modules_path item).
  set (nodeModulesNode := Cell.mk nodeModulesId "node_modules" (ScanItem.node_modules_path item)
                            node_modules [] (ScanItem.size item) false false (length parts)).
  change (match parentNode with
          | Some parent => _
          | None => _
          end) with (attach parentNode nodeModulesId nodeModulesNode false b1).
  apply fresh_attach; [|done]. split; [done|].
  symmetry. apply bool_decide_eq_false_2. by intros [? _].
Qed.

Lemma foldl_add_item_fresh items b :
  Forall fresh (heap b) → Forall fresh (heap (foldl add_item b items)).
Proof.
  revert b. induction items as [|item items IH]; intros b Hall; [done|].
  cbn [foldl]. by apply IH, add_item_fresh.
Qed.

(** *** From the heap to the tree *)

Lemma reify_root fuel (h : list Cell.t) r t c :
  reify fuel h r = Some t → h !! r = Some c →
  reads h c t ∧ Forall2 (λ x child, ∃ fuel', reify fuel' h x = Some child)
                  (Cell.children c) (TreeNode.children t).
Proof.
  intros Hreify Hc. destruct fuel as [|fuel]; [done|].
  cbn [reify] in Hreify. rewrite Hc in Hreify. simpl in Hreify.
  destruct (mapM (reify fuel h) (Cell.children c)) as [children|] eqn:Hchildren; [|done].
  simpl in Hreify. injection Hreify as <-.
  apply mapM_Some in Hchildren. split.
  - repeat (split; [done|]). simpl.
    eapply Forall2_impl; [done|]. intros x child Hx. simpl in Hx.
    destruct fuel as [|fuel']; [done|]. cbn [reify] in Hx.
    destruct (h !! x) as [cc|]; [|done]. simpl in Hx.
    destruct (mapM (reify fuel' h) (Cell.children cc)); [|done].
    simpl in Hx. injection Hx as <-. eauto.
  - simpl. eapply Forall2_impl; [done|]. intros x child Hx. by exists fuel.
Qed.

Lemma reify_complete (h : list Cell.t) r x :
  descends h r x →
  ∀ fuel t c, reify fuel h r = Some t → h !! x = Some c →
    ∃ node, node ∈ subnodes t ∧ reads h c node.
Proof.
  induction 1 as [r|r y x Hry _ IH]; intros fuel t c Hreify Hc.
  - exists t. split; [apply subnodes_here|]. by eapply reify_root.
  - destruct Hry as (cr & Hcr & Hy).
    destruct (reify_root fuel h r t cr Hreify Hcr) as [_ Hchildren].
    apply list_elem_of_lookup in Hy as [i Hi].
    destruct (Forall2_lookup_l _ _ _ _ _ Hchildren Hi) as (child & Hchild & fuel' & Hreify').
    destruct (IH fuel' child c Hreify' Hc) as (node & Hnode & Hreads).
    exists node. split; [|done]. apply subnodes_below.
    apply list_elem_of_lookup_2 in Hchild.
    apply list_elem_of_In, in_flat_map. exists child.
    by split; apply list_elem_of_In.
Qed.

(** The heap behind the returned tree: the sizing pass keeps the shape of the
    heap built by the insertion loop and every [node_modules] object as it is,
    and the tree is read from the roots of that heap. *)
Lemma buildTreeFromResults_heap (localeCompare : string → string → Z)
    (results : list ScanItem.t) :
  let b := build_nodes localeCompare results in
  ∃ h tree,
    buildTreeFromResults localeCompare results = Some tree
    ∧ shape <$> h = shape <$> heap b
    ∧ (∀ x n, heap b !! x = Some n → Cell.type n = node_modules → h !! x = Some n)
    ∧ Forall2 (λ r t, reify (length h) h r = Some t) (rootNodes b) tree.
Proof.
  intros b.
  destruct (build_nodes_inv localeCompare results) as [Hinv _]. fold b in Hinv.
  destruct (calculateFolderSizes_spec (S (length (heap b))) (rootNodes b) (heap b))
    as (h & Hcalc & Hshape & _ & _ & Hkeep).
  - apply Hinv.
  - apply roots_independent; [apply Hinv|]. intros r p Hr. by apply (inv_roots b Hinv).
  - apply Hinv.
  - lia.
  - intros r Hr%(inv_roots b Hinv). lia.
  - assert (is_Some (mapM (reify (length h) h) (rootNodes b))) as [tree Htree].
    { apply mapM_is_Some, Forall_forall. intros r Hr%(inv_roots b Hinv).
      apply reify_total; [by eapply same_shape_forest, Hinv| |lia].
      rewrite (same_shape_length _ _ Hshape). lia. }
    exists h, tree. split.
    + unfold buildTreeFromResults, buildTree_heap. fold b. rewrite Hcalc. done.
    + split; [done|]. split; [|by apply mapM_Some].
      intros x n Hn Hty. apply Hkeep; [done|by left].
Qed.

(** X15: Every scan result whose project path has a non-empty segment is shown:
    the tree holds a [node_modules] node with the result's path and size,
    the fixed name and the id made from the path. *)
Theorem buildTreeFromResults_shows (localeCompare : string → string → Z)
    (results : list ScanItem.t) (item : ScanItem.t) :
  item ∈ results → has_part item →
  ∃ tree node,
    buildTreeFromResults localeCompare results = Some tree
    ∧ node ∈ flat_map subnodes tree
    ∧ TreeNode.type node = node_modules
    ∧ TreeNode.id node = "node_modules-" +:+ ScanItem.node_modules_path item
    ∧ TreeNode.name node = "node_modules"
    ∧ TreeNode.path node = ScanItem.node_modules_path item
    ∧ TreeNode.size node = ScanItem.size item
    ∧ TreeNode.children node = [].
Proof.
  intros Hitem Hpart.
  destruct (buildTreeFromResults_heap localeCompare results)
    as (h & tree & Htree & Hshape & Hkeep & Hreify).
  destruct (build_nodes_inv localeCompare results) as [Hinv _].
  set (b := build_nodes localeCompare results) in *.
  destruct (foldl_add_item_shown (sortResults localeCompare results) _ build_inv_empty)
    as (_ & Hshown & _).
  destruct (Hshown item) as (x & c & p & Hc & Hpx & Hty & Hid & Hname & Hpath & Hsize);
    [by rewrite sortResults_perm|done|].
  fold (build_nodes localeCompare results) in Hc, Hpx. fold b in Hc, Hpx.
  assert (∃ cp, heap b !! p = Some cp ∧ Cell.type cp = folder) as (cp & Hcp & Hfolder).
  { destruct Hpx as (cp & Hcp & Hin). exists cp. split; [done|].
    destruct (Cell.type cp) eqn:Hk; [done|].
    rewrite (forest_leaf _ (inv_forest b Hinv) p cp Hcp Hk) in Hin.
    by apply elem_of_nil in Hin. }
  destruct (covered b p cp Hinv Hcp Hfolder) as (r & Hr & Hrp).
  assert (descends h r x) as Hrx.
  { apply (same_shape_descends (heap b)); [done|].
    eapply rtc_r; [exact Hrp|exact Hpx]. }
  apply list_elem_of_lookup in Hr as [i Hi].
  destruct (Forall2_lookup_l _ _ _ _ _ Hreify Hi) as (t & Ht & Hreified).
  destruct (reify_complete h r x Hrx _ t c Hreified (Hkeep x c Hc Hty))
    as (node & Hnode & Hreads).
  exists tree, node. split; [done|]. split.
  { apply list_elem_of_In, in_flat_map. exists t.
    split; apply list_elem_of_In; [by eapply list_elem_of_lookup_2|done]. }
  destruct Hreads as (Hi1 & Hi2 & Hi3 & Hi4 & Hi5 & _ & _ & _ & Hchildren).
  rewrite Hi1, Hi2, Hi3, Hi4, Hi5. repeat (split; [done|]).
  rewrite (forest_leaf _ (inv_forest b Hinv) x c Hc Hty) in Hchildren.
  by apply Forall2_nil_inv_l in Hchildren.
Qed.

Lemma unselected_collects_nothing (tree : list TreeNode.t) :
  (∀ node, node ∈ flat_map subnodes tree → TreeNode.isSelected node = false) →
  updateSelectedItems tree = [].
Proof.
  intros Hflags.
  destruct (updateSelectedItems tree) as [|path paths] eqn:Hpaths; [done|].
  destruct (updateSelectedItems_sound tree path) as (node & Hnode & _ & Hsel & _).
  { rewrite Hpaths. apply list_elem_of_here. }
  rewrite (Hflags node Hnode) in Hsel. done.
Qed.

Lemma buildTreeFromResults_flags (localeCompare : string → string → Z)
    (results : list ScanItem.t) :
  ∃ tree,
    buildTreeFromResults localeCompare results = Some tree
    ∧ ∀ node, node ∈ flat_map subnodes tree →
        TreeNode.isSelected node = false
        ∧ TreeNode.isExpanded node
          = bool_decide (TreeNode.type node = folder ∧ TreeNode.level node < 2).
Proof.
  destruct (buildTreeFromResults_heap localeCompare results)
    as (h & tree & Htree & Hshape & _ & Hreify).
  exists tree. split; [done|].
  assert (Forall fresh h) as Hfresh.
  { assert (Forall fresh (heap (build_nodes localeCompare results))) as H.
    { apply foldl_add_item_fresh. constructor. }
    apply Forall_lookup. intros x c Hc.
    destruct (same_shape_lookup h _ x c (eq_sym Hshape) Hc) as (c0 & Hc0 & Heq).
    pose proof (proj1 (Forall_lookup _ _) H x c0 Hc0) as [Hs He].
    apply shape_fields in Heq as (_ & _ & _ & Hty & _ & Hexp & Hsel & Hlevel).
    unfold fresh. by rewrite <- Hty, <- Hexp, <- Hsel, <- Hlevel. }
  intros node (t & Ht & Hnode)%list_elem_of_In%in_flat_map.
  apply list_elem_of_In in Ht, Hnode.
  apply list_elem_of_lookup in Ht as [i Hi].
  destruct (Forall2_lookup_r _ _ _ _ _ Hreify Hi) as (r & _ & Hr).
  destruct (reify_reads _ h r t Hr node Hnode) as (x & c & Hc & Hreads).
  destruct Hreads as (_ & _ & _ & Hty & _ & Hexp & Hsel & Hlevel & _).
  destruct (proj1 (Forall_lookup _ _) Hfresh x c Hc) as [Hs He].
  by rewrite Hty, Hexp, Hsel, Hlevel.
Qed.

(** X17: In a tree as built nothing is selected, and exactly the folders of
    the first two levels are open; the collector finds no selected path. *)
Theorem buildTreeFromResults_fresh (localeCompare : string → string → Z)
    (results : list ScanItem.t) :
  ∃ tree,
    buildTreeFromResults localeCompare results = Some tree
    ∧ (∀ node, node ∈ flat_map subnodes tree →
         TreeNode.isSelected node = false
         ∧ TreeNode.isExpanded node
           = bool_decide (TreeNode.type node = folder ∧ TreeNode.level node < 2))
    ∧ updateSelectedItems tree = [].
Proof.
  destruct (buildTreeFromResults_flags localeCompare results) as (tree & Htree & Hflags).
  exists tree. split; [done|]. split; [done|].
  apply unselected_collects_nothing. intros node Hnode. by apply Hflags.
Qed.

Lemma buildTreeFromResults_shows_witness :
  ∃ tree node,
    buildTreeFromResults byte_order sized_results = Some tree
    ∧ node ∈ flat_map subnodes tree
    ∧ TreeNode.type node = node_modules
    ∧ TreeNode.id node = "node_modules-/r/app/node_modules"
    ∧ TreeNode.name node = "node_modules"
    ∧ TreeNode.path node = "/r/app/node_modules"
    ∧ TreeNode.size node = js_number 300
    ∧ TreeNode.children node = [].
Proof.
  refine (buildTreeFromResults_shows byte_order sized_results
            (ScanItem.mk "/r/app" "/r/app/node_modules" (js_number 300)) _ _).
  - apply list_elem_of_further, list_elem_of_here.
  - exists "r". split; [|done].
    change (split_path _) with ["" ; "r"; "app"].
    apply list_elem_of_further, list_elem_of_here.
Defined.

(** ** The scan and deletion life cycles *)


Lemma handleStartScan_accepted now st roots sizes :
  invoke_start_scan_with_progress roots sizes ∈ (handleStartScan now st).2 →
  (handleStartScan now st).1
  = setScanProgress initialProgress
      (setSelectedItems []
         (setTreeData []
            (setScanResults [] (setScanStartTime (Some now) (setIsScanning true st))))).
Proof.
  unfold handleStartScan.
  destruct (isScanning st); [by intros ?%elem_of_nil|].
  destruct (scope_roots st) as [message|roots'].
  { intros [=]%list_elem_of_singleton. }
  case_bool_decide; [by intros [=]%list_elem_of_singleton|done].
Qed.


(** *** Deleting *)

Lemma confirmDelete_cases st target :
  deleteTarget st = Some target →
  (delete_paths target st = []
   ∧ confirmDelete st = (confirmDelete_finally (setIsDeleting true st), []))
  ∨ (delete_paths target st ≠ []
     ∧ confirmDelete st
       = (setIsDeleting true st, [invoke_delete_node_modules (delete_paths target st)])).
Proof.
  intros Htarget. unfold confirmDelete. rewrite Htarget.
  case_bool_decide as Hlen.
  - left. split; [|done]. by destruct (delete_paths target st).
  - right. split; [|done]. intros Hnil. apply Hlen. by rewrite Hnil.
Qed.

(** X20: A confirmed deletion never sends an empty request, and however it
    ends (nothing to send, an answer, a failure) the dialog is closed:
    neither the deleting state nor a target remain, so that a repeated
    confirmation does nothing. *)
Theorem confirmDelete_closes (st : AppState) (reply : Settled (list DeleteResult.t)) :
  deleteTarget st ≠ None →
  (∀ paths, invoke_delete_node_modules paths ∈ (confirmDelete st).2 →
     paths ≠ [] ∧ isDeleting (confirmDelete st).1 = true)
  ∧ let st' := if bool_decide ((confirmDelete st).2 = [])
               then (confirmDelete st).1
               else (confirmDelete_settled reply (confirmDelete st).1).1 in
    isDeleting st' = false ∧ showDeleteModal st' = false ∧ deleteTarget st' = None
    ∧ confirmDelete st' = (st', []).
Proof.
  destruct (deleteTarget st) as [target|] eqn:Htarget; [intros _|done].
  split.
  - intros paths.
    destruct (confirmDelete_cases st target Htarget) as [[_ ->]|[Hne ->]].
    + by intros ?%elem_of_nil.
    + intros [= ->]%list_elem_of_singleton. split; [done|by destruct st].
  - destruct (confirmDelete_cases st target Htarget) as [[_ ->]|[_ ->]]; simpl.
    + by destruct st.
    + destruct reply; by destruct st.
Qed.

Lemma confirmDelete_closes_witness :
  let st := click_delete
              (TreeNode.mk "node_modules-/r/app/node_modules" "node_modules"
                 "/r/app/node_modules" node_modules [] (js_number 300) false false 3)
              (loaded sized_results sized_tree) in
  let reply := rejected "permission denied" in
  (∀ paths, invoke_delete_node_modules paths ∈ (confirmDelete st).2 →
     paths ≠ [] ∧ isDeleting (confirmDelete st).1 = true)
  ∧ let st' := if bool_decide ((confirmDelete st).2 = [])
               then (confirmDelete st).1
               else (confirmDelete_settled reply (confirmDelete st).1).1 in
    isDeleting st' = false ∧ showDeleteModal st' = false ∧ deleteTarget st' = None
    ∧ confirmDelete st' = (st', []).
Proof.
  apply (confirmDelete_closes
           (click_delete
              (TreeNode.mk "node_modules-/r/app/node_modules" "node_modules"
                 "/r/app/node_modules" node_modules [] (js_number 300) false false 3)
              (loaded sized_results sized_tree))
           (rejected "permission denied")).
  done.
Defined.

Section Rebuild.
Variable localeCompare : string → string → Z.

(** X21: After a deletion has been answered and the tree rebuilt from the
    remaining results, the tree and the selection agree again (nothing is
    selected in either), and every [node_modules] node left in the tree
    belongs to a former result for which the answer reports no failure. *)
Theorem delete_then_rebuild (results : list DeleteResult.t) (st : AppState) :
  ∃ st',
    rebuild_tree localeCompare (confirmDelete_settled (resolved results) st).1 = Some st'
    ∧ scanResults st' = remove_deleted results (scanResults st)
    ∧ selectedItems st' = []
    ∧ updateSelectedItems (treeData st') = []
    ∧ ∀ node, node ∈ flat_map subnodes (treeData st') →
        TreeNode.type node = node_modules →
        ∃ item, item ∈ scanResults st
                ∧ ScanItem.node_modules_path item = TreeNode.path node
                ∧ ∀ r, r ∈ results → DeleteResult.path r = TreeNode.path node →
                       DeleteResult.success r = true.
Proof.
  set (st1 := (confirmDelete_settled (resolved results) st).1).
  assert (scanResults st1 = remove_deleted results (scanResults st)) as Hresults
    by by destruct st.
  assert (selectedItems st1 = []) as Hselected by by destruct st.
  unfold rebuild_tree. rewrite Hresults. case_bool_decide as Hlen.
  - destruct (buildTreeFromResults_flags localeCompare
                (remove_deleted results (scanResults st))) as (tree & Htree & Hflags).
    rewrite Htree. exists (setTreeData tree st1). split; [done|].
    split; [by destruct st1|]. split; [by destruct st1|].
    assert (treeData (setTreeData tree st1) = tree) as -> by by destruct st1.
    split.
    { apply unselected_collects_nothing. intros node Hnode. by apply Hflags. }
    intros node Hnode Hty.
    destruct (tree_node_modules_item localeCompare _ tree (TreeNode.path node) Htree)
      as (item & Hitem & Hpath).
    { apply kinds_elem. by exists node. }
    apply remove_deleted_spec in Hitem as [Hitem Hnot].
    exists item. split; [done|]. split; [done|].
    intros r Hr Hrpath. destruct (DeleteResult.success r) eqn:Hs; [done|].
    destruct Hnot. exists r. by rewrite Hpath.
  - exists (setTreeData [] st1). split; [done|].
    split; [by destruct st1|]. split; [by destruct st1|].
    assert (treeData (setTreeData [] st1) = []) as -> by by destruct st1.
    split; [done|]. by intros node ?%elem_of_nil.
Qed.

End Rebuild.

(** *** The progress bar *)




(** ** Trimming *)

Lemma string_app_cons a s t : String a s +:+ t = String a (s +:+ t).
Proof. done. Qed.

Lemma string_app_nil_r s : s +:+ "" = s.
Proof. induction s as [|a s IH]; [done|]. by rewrite string_app_cons, IH. Qed.

Lemma string_length_app s t : String.length (s +:+ t) = String.length s + String.length t.
Proof. induction s as [|a s IH]; [done|]. rewrite string_app_cons. simpl. by rewrite IH. Qed.

Lemma rev_app_spec s acc : String.rev_app s acc = String.rev s +:+ acc.
Proof.
  unfold String.rev. revert acc. induction s as [|a s IH]; intros acc; [done|].
  simpl. rewrite (IH (String a acc)), (IH (String a "")).
  by rewrite string_app_assoc.
Qed.

Lemma rev_cons a s : String.rev (String a s) = String.rev s +:+ String a "".
Proof. unfold String.rev at 1. simpl. apply rev_app_spec. Qed.

Lemma rev_app s t : String.rev (s +:+ t) = String.rev t +:+ String.rev s.
Proof.
  induction s as [|a s IH].
  - by rewrite string_app_nil_r.
  - rewrite string_app_cons, !rev_cons, IH. by rewrite string_app_assoc.
Qed.

Lemma rev_involutive s : String.rev (String.rev s) = s.
Proof.
  induction s as [|a s IH]; [done|].
  by rewrite rev_cons, rev_app, IH.
Qed.

Lemma strip_prefix_spec w s rest : strip_prefix w s = Some rest ↔ s = w +:+ rest.
Proof.
  revert s. induction w as [|a w IH]; intros s.
  - simpl. split; [by intros [= ->]|by intros ->].
  - destruct s as [|b s]; simpl; [done|].
    rewrite string_app_cons. case_bool_decide as Hab.
    + subst b. rewrite IH. split; [by intros ->|by intros [= ->]].
    + split; [done|]. intros [= ? _]. done.
Qed.

Lemma strip_any_Some table s rest :
  strip_any table s = Some rest → ∃ w, w ∈ table ∧ s = w +:+ rest.
Proof.
  induction table as [|w table IH]; [done|]. simpl.
  destruct (strip_prefix w s) as [rest'|] eqn:Hw.
  - intros [= ->]. exists w. split; [apply list_elem_of_here|]. by apply strip_prefix_spec.
  - intros (w' & Hin & Heq)%IH. exists w'. split; [by apply list_elem_of_further|done].
Qed.

Lemma strip_any_None table s :
  strip_any table s = None ↔ ∀ w rest, w ∈ table → s ≠ w +:+ rest.
Proof.
  induction table as [|w table IH]; simpl.
  - split; [|done]. by intros _ w rest ?%elem_of_nil.
  - destruct (strip_prefix w s) as [rest'|] eqn:Hw.
    + split; [done|]. intros H. destruct (H w rest'); [apply list_elem_of_here|].
      by apply strip_prefix_spec.
    + rewrite IH. split.
      * intros H w' rest [->|Hin]%elem_of_cons; [|by apply H].
        intros Heq%strip_prefix_spec. congruence.
      * intros H w' rest Hin. by apply H, list_elem_of_further.
Qed.

Lemma trim_from_spec table fuel s :
  Forall (λ w, w ≠ "") table → String.length s ≤ fuel →
  strip_any table (trim_from table fuel s) = None
  ∧ ∃ pre, s = pre +:+ trim_from table fuel s.
Proof.
  intros Htable. revert s. induction fuel as [|fuel IH]; intros s Hlen.
  - destruct s; [|simpl in Hlen; lia]. simpl. split; [|by exists ""].
    apply strip_any_None. intros w rest Hw Heq.
    destruct w; [by apply (proj1 (Forall_forall _ _) Htable "" Hw)|done].
  - simpl. destruct (strip_any table s) as [rest|] eqn:Hstrip; [|by split; [|exists ""]].
    destruct (strip_any_Some _ _ _ Hstrip) as (w & Hw & ->).
    assert (w ≠ "") as Hne by by apply (proj1 (Forall_forall _ _) Htable w Hw).
    destruct (IH rest) as [Hclean [pre Hpre]].
    { rewrite string_length_app in Hlen. destruct w; [done|]. simpl in Hlen. lia. }
    split; [done|]. exists (w +:+ pre). by rewrite string_app_assoc, <- Hpre.
Qed.

Lemma trim_from_clean table fuel s :
  strip_any table s = None → trim_from table fuel s = s.
Proof. intros H. destruct fuel; [done|]. simpl. by rewrite H. Qed.

Lemma whiteSpace_nonempty : Forall (λ w, w ≠ "") whiteSpace.
Proof. unfold whiteSpace. repeat (constructor; [done|]). constructor. Qed.

Lemma whiteSpace_rev_nonempty : Forall (λ w, w ≠ "") (String.rev <$> whiteSpace).
Proof. unfold whiteSpace. simpl. repeat (constructor; [done|]). constructor. Qed.

Lemma rev_length s : String.length (String.rev s) = String.length s.
Proof.
  induction s as [|a s IH]; [done|].
  rewrite rev_cons, string_length_app, IH. simpl. lia.
Qed.

(** Trimming leaves nothing to trim at either end. *)
Lemma trim_clean s :
  strip_any whiteSpace (trim s) = None
  ∧ strip_any (String.rev <$> whiteSpace) (String.rev (trim s)) = None.
Proof.
  unfold trim, trimEnd.
  destruct (trim_from_spec whiteSpace (String.length s) s whiteSpace_nonempty)
    as [Hstart _]; [done|].
  fold (trimStart s) in Hstart |- *. set (t := trimStart s) in *.
  destruct (trim_from_spec (String.rev <$> whiteSpace) (String.length t) (String.rev t)
              whiteSpace_rev_nonempty) as [Hend [pre Hpre]]; [by rewrite rev_length|].
  set (v := trim_from _ _ _) in *.
  split; [|by rewrite rev_involutive].
  apply strip_any_None. intros w rest Hw Heq.
  assert (t = w +:+ (rest +:+ String.rev pre)) as Ht.
  { rewrite <- (rev_involutive t), Hpre, rev_app, Heq. by rewrite string_app_assoc. }
  by apply (proj1 (strip_any_None _ _) Hstart w (rest +:+ String.rev pre)).
Qed.

Lemma trim_trim s : trim (trim s) = trim s.
Proof.
  destruct (trim_clean s) as [Hstart Hend].
  unfold trim at 1. unfold trimStart. rewrite (trim_from_clean _ _ _ Hstart).
  unfold trimEnd. rewrite (trim_from_clean _ _ _ Hend). apply rev_involutive.
Qed.

(** X24: A path typed into the fallback prompt and accepted is the scan
    target as stored: the next scan of the folder scope is started on
    exactly the stored folder, without a further warning. *)
Theorem prompt_folder_is_scanned (reply : Settled (option string)) (typed : string)
    (now : Z) (st : AppState) :
  (∀ result, reply = resolved (Some result) → result = "") →
  trim typed ≠ "" →
  scanScope st = scope_folder → isScanning st = false →
  let st' := (handleBrowseFolder reply (Some typed) st).1 in
  selectedFolder st' = trim typed
  ∧ (handleStartScan now st').2
    = [invoke_start_scan_with_progress [selectedFolder st'] (includeSizes st)].
Proof.
  intros Hreply Hblank Hscope Hscanning st'.
  assert (typed ≠ "") as Htyped by (by intros ->).
  assert (st' = setSelectedFolder (trim typed) st) as ->.
  { unfold st', handleBrowseFolder, prompt_fallback.
    rewrite !bool_decide_eq_false_2 by done. simpl.
    destruct reply as [[result|]|error]; [|done..].
    rewrite (Hreply result eq_refl). done. }
  split; [by destruct st|].
  unfold handleStartScan, scope_roots.
  destruct st as [scope ? ? ? ? scanning]. simpl in *. subst scope scanning.
  rewrite trim_trim. by rewrite bool_decide_eq_false_2.
Qed.

Lemma prompt_folder_is_scanned_witness :
  let st := with_scope scope_folder "" "" [] false in
  let st' := (handleBrowseFolder (rejected "no dialog") (Some "  /home/me/work ") st).1 in
  selectedFolder st' = "/home/me/work"
  ∧ (handleStartScan 1000 st').2
    = [invoke_start_scan_with_progress [selectedFolder st'] true].
Proof.
  refine (prompt_folder_is_scanned (rejected "no dialog") "  /home/me/work " 1000
            (with_scope scope_folder "" "" [] false) _ _ eq_refl eq_refl).
  - by intros result [=].
  - by vm_compute.
Defined.

(** ** The nodes of the tree and the results *)

(** *** Where the folders come from *)






(** *** Which [node_modules] objects hang in the tree *)





(** *** The objects behind the nodes of the tree *)







Example rootless_next_to_others :
  kinds (default [] (buildTreeFromResults byte_order (rootless_results ++ [kept_item])))
  = [(folder, "/r"); (folder, "/r/app"); (node_modules, "/r/app/node_modules")].
Proof. by vm_compute. Qed.

(** ** Bulk deletion requests *)






(** ** A scan that is answered early *)

Lemma run_scan_fields (events : list ScanEvent) (st : AppState) :
  Forall (λ event, keeps_scanning event = true) events →
  isScanning (run_scan events st) = isScanning st
  ∧ scanStartTime (run_scan events st)
    = (if existsb is_timeout events then None else scanStartTime st).
Proof.
  unfold run_scan. intros Hall. revert st.
  induction Hall as [|event events Hevent _ IH]; intros st; [done|].
  cbn [foldl existsb]. destruct (IH (scan_step st event)) as (-> & ->).
  destruct event as [progress| |[results|error]]; simpl in *.
  - unfold on_scan_progress. apply negb_true_iff in Hevent. rewrite Hevent.
    by destruct st.
  - split; [by destruct st|]. by destruct (existsb is_timeout events).
  - by destruct st.
  - done.
Qed.

(** X18: A scan whose reply arrives while nothing has ended the scanning
    state (no completing progress event, no failure of an earlier scan)
    leaves the application scanning: the results are stored and a further
    start request is ignored.  The timer runs on from the start time,
    unless the callback of a timer set by an earlier completion has come
    in between: then the start time is gone and the timer is off, although
    the application is scanning. *)
Theorem scan_reply_keeps_scanning (now : Z) (st : AppState) (roots : list string)
    (sizes : bool) (events : list ScanEvent) (results : list ScanItem.t) :
  invoke_start_scan_with_progress roots sizes ∈ (handleStartScan now st).2 →
  Forall (λ event, keeps_scanning event = true) events →
  let st' := (handleStartScan_settled (resolved results)
                (run_scan events (handleStartScan now st).1)).1 in
  isScanning st' = true
  ∧ scanResults st' = results
  ∧ (∀ now', handleStartScan now' st' = (st', []))
  ∧ (duration_effect st').2 = (if existsb is_timeout events then None else Some now).
Proof.
  intros Hstart Hevents st'.
  destruct (run_scan_fields events (handleStartScan now st).1 Hevents)
    as (Hscanning & Htime).
  rewrite (handleStartScan_accepted _ _ _ _ Hstart) in Hscanning at 2.
  rewrite (handleStartScan_accepted _ _ _ _ Hstart) in Htime at 2.
  assert (isScanning st' = true) as Hscanning'.
  { unfold st'. simpl. destruct (run_scan _ _). simpl in *. rewrite Hscanning. by destruct st. }
  assert (scanStartTime st'
          = if existsb is_timeout events then None else Some now) as Htime'.
  { unfold st'. simpl. destruct (run_scan _ _). simpl in *. rewrite Htime. by destruct st. }
  split; [done|]. split; [unfold st'; by destruct (run_scan _ _)|]. split.
  - intros now'. unfold handleStartScan. by rewrite Hscanning'.
  - unfold duration_effect. rewrite Hscanning', Htime'.
    by destruct (existsb is_timeout events).
Qed.

Lemma scan_reply_keeps_scanning_witness :
  let st := with_scope scope_folder " /a " "" [] false in
  let st' := (handleStartScan_settled (resolved sized_results)
                (run_scan [ev_progress (ScanProgress.mk "/a/x" 1 0 0 0 false); ev_timeout;
                           ev_reply (resolved [kept_item]); ev_progress overshoot]
                   (handleStartScan 1000 st).1)).1 in
  isScanning st' = true
  ∧ scanResults st' = sized_results
  ∧ (∀ now', handleStartScan now' st' = (st', []))
  ∧ (duration_effect st').2 = None.
Proof.
  refine (scan_reply_keeps_scanning 1000 (with_scope scope_folder " /a " "" [] false)
            ["/a"] true
            [ev_progress (ScanProgress.mk "/a/x" 1 0 0 0 false); ev_timeout;
             ev_reply (resolved [kept_item]); ev_progress overshoot] sized_results _ _).
  - vm_compute. apply list_elem_of_here.
  - by repeat constructor.
Defined.

(** ** Choosing a folder *)

(** X23: A dialog result that is not empty becomes the selected folder
    as it is.  Without one, an answer to the prompt that is not blank
    becomes the selected folder trimmed, and a blank or missing answer
    changes nothing.  Nothing but the selected folder ever changes, and
    it is never replaced by the empty string. *)
Theorem handleBrowseFolder_nonempty (reply : Settled (option string))
    (input : option string) (st : AppState) :
  let st' := (handleBrowseFolder reply input st).1 in
  (∀ result, reply = resolved (Some result) → result ≠ "" →
     st' = setSelectedFolder result st)
  ∧ ((∀ result, reply = resolved (Some result) → result = "") →
     match input with
     | Some typed =>
         if bool_decide (trim typed = "") then st' = st
         else st' = setSelectedFolder (trim typed) st
     | None => st' = st
     end)
  ∧ (st' = st ∨ selectedFolder st' ≠ "").
Proof.
  assert (∀ folder, selectedFolder (setSelectedFolder folder st) = folder) as Hget
    by by destruct st.
  assert (let st' := prompt_fallback input st in
          match input with
          | Some typed =>
              if bool_decide (trim typed = "") then st' = st
              else st' = setSelectedFolder (trim typed) st
          | None => st' = st
          end) as Hprompt.
  { unfold prompt_fallback. destruct input as [typed|]; [|done].
    destruct (decide (typed = "")) as [->|Hempty].
    - by rewrite !bool_decide_eq_true_2.
    - rewrite (bool_decide_eq_false_2 (typed = "")) by done. simpl.
      by case_bool_decide. }
  assert (prompt_fallback input st = st ∨ selectedFolder (prompt_fallback input st) ≠ "")
    as Hprompt'.
  { simpl in Hprompt. destruct input as [typed|]; [|by left].
    case_bool_decide; [by left|]. right. by rewrite Hprompt, Hget. }
  unfold handleBrowseFolder. destruct reply as [[result|]|error]; simpl.
  - case_bool_decide as Hresult; simpl.
    + split; [by intros ? [= <-]|]. split; [by intros _|done].
    + split; [by intros ? [= <-]|]. split.
      * intros Hnone. by destruct Hresult, (Hnone result).
      * right. by destruct st.
  - split; [by intros ? [=]|]. split; [by intros _|done].
  - split; [by intros ? [=]|]. split; [by intros _|done].
Qed.
